(** * Visit queries and visit reports of the recordings API

    A shallow embedding of [queryVisits], [reportVisits] and
    [addAudioBaitRow] of [api/V1/recordingUtil.ts], with the properties of
    the windowed fetch loop, of the result assembly and of the report
    ordering.

    Conventions of the embedding:
    - JavaScript numbers that hold counts, offsets, limits and millisecond
      timestamps are integers of [Z]; a [Moment] is its [valueOf()], the
      millisecond timestamp.
    - [undefined] and [null] are [None]; a value that may be absent is an
      [option].
    - Arrays are lists, first element first; [pop] takes the last element.
    - [await] is sequencing: the source is queried one call at a time. *)

From Stdlib Require Import String Ascii.
From Stdlib Require Import ZArith List Bool Lia Arith.
From Stdlib Require Import Sorting.Sorted Sorting.Permutation.
From Stdlib Require Import DecimalString.
From Stdlib Require Import QArith.
Import ListNotations.
Local Open Scope Z_scope.

(* ===================================================================== *)
(** * JavaScript values and built-ins used by the code                    *)
(* ===================================================================== *)

Module JS.

(** Truthiness of a number that may be absent: [undefined], [null] and [0]
    are falsy. *)
Definition truthy_num (x : option Z) : bool :=
  match x with
  | Some n => negb (n =? 0)
  | None => false
  end.

(** Truthiness of a boolean that may still be [undefined]. *)
Definition truthy_bool (x : option bool) : bool :=
  match x with
  | Some b => b
  | None => false
  end.

(** [x || 0] on a number that may be absent. *)
Definition or_zero (x : option Z) : Z :=
  match x with
  | Some n => n
  | None => 0
  end.

(** [ToNumber] of an array of objects, as the relational operators apply it:
    the array is first turned into a string by joining the strings of its
    elements with commas.  The empty array gives the empty string, whose
    number is 0; an array of model instances gives text such as
    [[object Object]], which is not a number ([None] stands for NaN). *)
Definition array_to_number {A : Type} (a : list A) : option Z :=
  match a with
  | [] => Some 0
  | _ :: _ => None
  end.

(** [n >= a] for a number [n] and an array [a]: false when [a] converts to
    NaN. *)
Definition num_ge_array {A : Type} (n : Z) (a : list A) : bool :=
  match array_to_number a with
  | Some m => n >=? m
  | None => false
  end.

(** [Array.prototype.pop]: the last element (or [undefined]) and the array
    that is left. *)
Definition pop {A : Type} (a : list A) : option A * list A :=
  match rev a with
  | [] => (None, [])
  | x :: r => (Some x, rev r)
  end.

(** [Array.prototype.push] of one element. *)
Definition push {A : Type} (a : list A) (x : A) : list A := a ++ [x].

(** [Array.prototype.reverse]. *)
Definition reverse {A : Type} (a : list A) : list A := rev a.

(** Decimal text of an integer, as [Number.prototype.toString] prints it. *)
Definition num_to_string (n : Z) : string :=
  NilEmpty.string_of_int (Z.to_int n).

(** A string cell that may hold [undefined]. *)
Inductive cell : Type :=
| CUndefined
| CString (s : string).

(** [c + s] for a cell and a string: [undefined] prints as its name. *)
Definition cell_concat (c : cell) (s : string) : string :=
  match c with
  | CUndefined => ("undefined" ++ s)%string
  | CString t => (t ++ s)%string
  end.

(** ** [Array.prototype.sort] with a comparison function

    The order of elements that the comparison function never reports as
    equal is left to the engine.  The model is the sort of V8 (Node.js):
    the leading run is found and, when it descends, reversed
    ([CountAndMakeRun]); every later element is put in place by a binary
    search over the sorted prefix ([BinaryInsertionSort]).  This is the
    whole algorithm for arrays of fewer than 64 elements; V8 cuts longer
    arrays into runs of this kind and merges them, where the model goes on
    inserting into one run. *)
Section ArraySort.
Context {A : Type} (comparefn : A -> A -> Z).

(** The loop of [CountAndMakeRun]: the run goes on while each element
    compares with its predecessor the way the first pair did. *)
Fixpoint run_extend (descending : bool) (previous : A) (l : list A)
  : list A * list A :=
  match l with
  | [] => ([], [])
  | current :: l' =>
    let order := comparefn current previous in
    if (if descending then order >=? 0 else order <? 0)
    then ([], l)
    else let '(run, rest) := run_extend descending current l' in
         (current :: run, rest)
  end.

Definition countAndMakeRun (l : list A) : list A * list A :=
  match l with
  | [] => ([], [])
  | [x] => ([x], [])
  | x0 :: x1 :: l' =>
    let descending := comparefn x1 x0 <? 0 in
    let '(run, rest) := run_extend descending x1 l' in
    let whole := x0 :: x1 :: run in
    (if descending then rev whole else whole, rest)
  end.

(** The binary search of [BinaryInsertionSort] for the place of [pivot]
    in [work[left .. right)]. *)
Fixpoint bsearch (fuel : nat) (pivot : A) (work : list A)
         (left right : nat) : nat :=
  match fuel with
  | O => left
  | S fuel' =>
    if (left <? right)%nat then
      let mid := (left + (right - left) / 2)%nat in
      let order := comparefn pivot (nth mid work pivot) in
      if order <? 0
      then bsearch fuel' pivot work left mid
      else bsearch fuel' pivot work (mid + 1)%nat right
    else left
  end.

Definition insert_at (i : nat) (x : A) (l : list A) : list A :=
  firstn i l ++ x :: skipn i l.

Fixpoint binaryInsertionSort (sorted rest : list A) : list A :=
  match rest with
  | [] => sorted
  | pivot :: rest' =>
    let left := bsearch (length sorted) pivot sorted 0 (length sorted) in
    binaryInsertionSort (insert_at left pivot sorted) rest'
  end.

Definition sort (l : list A) : list A :=
  let '(run, rest) := countAndMakeRun l in
  binaryInsertionSort run rest.
End ArraySort.

End JS.

(** Lists in the order of a key, smallest first and largest first. *)
Definition ascending_by {A : Type} (key : A -> Z) : list A -> Prop :=
  StronglySorted (fun x y => key x <= key y).

Definition descending_by {A : Type} (key : A -> Z) : list A -> Prop :=
  StronglySorted (fun x y => key y <= key x).

(* ===================================================================== *)
(** * Data handled by the visit query                                     *)
(* ===================================================================== *)

Definition FileId := Z.
Definition UserId := Z.

(** An audio-bait playback event: [dateTime], the file and volume of
    [EventDetail.details], and [dataValues.fileName], which [queryVisits]
    fills in. *)
Record AudioEvent : Type := {
  ae_id : Z;
  ae_dateTime : Z;
  ae_fileId : FileId;
  ae_volume : option Z;
  ae_fileName : JS.cell
}.

(** One event of a visit: a track of one recording. *)
Record VisitEvent : Type := {
  ve_recID : Z;
  ve_trackID : Z;
  ve_start : Z;
  ve_end : Z;
  ve_what : string
}.

Record Visit : Type := {
  visitID : Z;
  v_deviceId : Z;
  v_start : Z;
  v_end : Z;
  v_events : list VisitEvent;
  v_audioBaitEvents : list AudioEvent;
  v_queryOffset : Z;
  v_complete : bool
}.

(** A row of the recordings table, with the audio events fetched with it. *)
Record Recording : Type := {
  rec_id : Z;
  rec_deviceId : Z;
  rec_dateTime : Z;
  rec_audioEvents : list AudioEvent
}.

(** A file of the bulk lookup: [id] and [details.name]. *)
Record File : Type := {
  f_id : FileId;
  f_name : string
}.

(** The query of the request: [offset] and [limit] may be absent. *)
Record RecordingQuery : Type := {
  q_offset : option Z;
  q_limit : option Z;
  q_user : UserId
}.

(** The class [DeviceSummary] of [Visits.ts], which is used by
    [queryVisits] but is not part of the sources at hand: its methods are
    taken as operations on an abstract summary.  Methods that change the
    summary return the new one; the others only read it. *)
Class DeviceSummaryOps (DS : Type) : Type := {
  newDeviceSummary : DS;
  generateVisits : list Recording -> Z -> bool -> UserId -> DS -> DS;
  checkForCompleteVisits : DS -> DS;
  completeVisitsCount : DS -> Z;
  markCompleted : DS -> DS;
  removeIncompleteVisits : DS -> DS;
  allAudioFileIds : DS -> list FileId;
  completeVisits : DS -> list Visit;
  earliestIncompleteOffset : DS -> option Z
}.

(** The recordings source ([models.Recording.findAndCountAll] and
    [findAll]).  An answer may depend on the offset and limit of the query
    and, through the number of earlier fetches, on everything that went
    before, so a source of this type can behave in any way at all. *)
Record Source : Type := {
  findAndCountAll : nat -> Z -> Z -> Z * list Recording;
  findAll : nat -> Z -> Z -> list Recording
}.

(** Calls made on the collaborators, in the order they are made. *)
Inductive Call : Type :=
| CallFindAndCountAll (offset limit : Z)
| CallFindAll (offset limit : Z)
| CallGenerateVisits (rows : nat) (offset : Z) (gotAll : bool)
| CallCheckForCompleteVisits
| CallCompleteVisitsCount
| CallMarkCompleted
| CallRemoveIncompleteVisits
| CallAllAudioFileIds
| CallCompleteVisits
| CallEarliestIncompleteOffset
| CallGetMultiple (ids : list FileId).

Definition is_fetch (c : Call) : bool :=
  match c with
  | CallFindAndCountAll _ _ | CallFindAll _ _ => true
  | _ => false
  end.

Definition is_finalization (c : Call) : bool :=
  match c with
  | CallMarkCompleted | CallRemoveIncompleteVisits => true
  | _ => false
  end.

(** The limit a fetch call is made with. *)
Definition fetch_limit (c : Call) : option Z :=
  match c with
  | CallFindAndCountAll _ limit | CallFindAll _ limit => Some limit
  | _ => None
  end.

(* ===================================================================== *)
(** * queryVisits                                                         *)
(* ===================================================================== *)

Definition maxVisitQueryResults : Z := 5000.
Definition queryMax : Z := maxVisitQueryResults * 2.

(** The variables of [queryVisits] that live across the fetch loop, with
    [builder.query.offset] and [builder.query.limit], the number of fetches
    made and the calls made so far. *)
Record LoopState (DS : Type) : Type := {
  totalCount : option Z;
  recordings : list Recording;
  gotAllRecordings : option bool;
  numRecordings : Z;
  remainingVisits : Z;
  query_offset : Z;
  query_limit : Z;
  devSummary : DS;
  fetches : nat;
  calls : list Call
}.
Arguments totalCount {DS} _.
Arguments recordings {DS} _.
Arguments gotAllRecordings {DS} _.
Arguments numRecordings {DS} _.
Arguments remainingVisits {DS} _.
Arguments query_offset {DS} _.
Arguments query_limit {DS} _.
Arguments devSummary {DS} _.
Arguments fetches {DS} _.
Arguments calls {DS} _.

(** How one run of the loop body ends: at its end, or at the [break]. *)
Inductive Outcome (DS : Type) : Type :=
| Continue (s : LoopState DS)
| Break (s : LoopState DS).
Arguments Continue {DS} _.
Arguments Break {DS} _.

(** The state an outcome of the body leaves. *)
Definition outcome_state {DS : Type} (o : Outcome DS) : LoopState DS :=
  match o with
  | Continue s => s
  | Break s => s
  end.

(** What [queryVisits] returns, with the calls it made. *)
Record VisitsResult (DS : Type) : Type := {
  r_visits : list Visit;
  r_summary : DS;
  r_hasMoreVisits : bool;
  r_totalRecordings : option Z;
  r_queryOffset : option Z;
  r_numRecordings : Z;
  r_numVisits : Z;
  r_calls : list Call
}.
Arguments r_visits {DS} _.
Arguments r_summary {DS} _.
Arguments r_hasMoreVisits {DS} _.
Arguments r_totalRecordings {DS} _.
Arguments r_queryOffset {DS} _.
Arguments r_numRecordings {DS} _.
Arguments r_numVisits {DS} _.
Arguments r_calls {DS} _.

(** The names found by the bulk lookup, as the properties set on
    [audioFileNames]: a later file with the same id replaces an earlier. *)
Definition FileNames := list (FileId * string).

Definition set_name (m : FileNames) (f : File) : FileNames :=
  (f_id f, f_name f) :: m.

Fixpoint get_name (m : FileNames) (id : FileId) : JS.cell :=
  match m with
  | [] => JS.CUndefined
  | (k, name) :: m' => if k =? id then JS.CString name else get_name m' id
  end.

Definition set_fileName (m : FileNames) (audioEvent : AudioEvent)
  : AudioEvent :=
  {| ae_id := ae_id audioEvent;
     ae_dateTime := ae_dateTime audioEvent;
     ae_fileId := ae_fileId audioEvent;
     ae_volume := ae_volume audioEvent;
     ae_fileName := get_name m (ae_fileId audioEvent) |}.

Definition set_fileNames (m : FileNames) (visit : Visit) : Visit :=
  {| visitID := visitID visit;
     v_deviceId := v_deviceId visit;
     v_start := v_start visit;
     v_end := v_end visit;
     v_events := v_events visit;
     v_audioBaitEvents := map (set_fileName m) (v_audioBaitEvents visit);
     v_queryOffset := v_queryOffset visit;
     v_complete := v_complete visit |}.

(** The comparison function of [visits.sort]:
    [b.start > a.start ? 1 : -1]. *)
Definition visit_comparefn (a b : Visit) : Z :=
  if v_start b >? v_start a then 1 else -1.

(** Visits with equal start times are returned in the order in which they
    were fetched: for every start time, the visits with that start come in
    the same order in both lists. *)
Definition keeps_fetch_order (fetched returned : list Visit) : Prop :=
  forall t,
    map visitID (filter (fun v => v_start v =? t) returned) =
    map visitID (filter (fun v => v_start v =? t) fetched).

(** Modelled from the spec: the query builder
    ([models.Recording.queryBuilder]) is not part of the sources at hand.
    [init] keeps the starting offset and the page size it is given as
    [builder.query.offset] and [builder.query.limit], an absent offset
    being 0, and [builder.get()] hands both to the source. *)
Definition builder_init (offset : option Z) (limit : Z) : Z * Z :=
  (JS.or_zero offset, limit).

Section QueryVisits.
Context {DS : Type} `{DeviceSummaryOps DS}.
(** The source, [rec.filterData(filterOptions)] with the options of the
    request, and [models.File.getMultiple]. *)
Variable source : Source.
Variable filterData : Recording -> Recording.
Variable getMultiple : list FileId -> list File.
Variable request : RecordingQuery.

Definition requestVisits : Z :=
  match q_limit request with
  | None => maxVisitQueryResults
  | Some limit => limit
  end.

Definition queryLimit : Z :=
  if JS.truthy_num (q_limit request)
  then Z.min (JS.or_zero (q_limit request) * 2) queryMax
  else queryMax.

(** The state before the loop. *)
Definition initial : LoopState DS :=
  let builder := builder_init (q_offset request) queryLimit in
  {| totalCount := None;
     recordings := [];
     gotAllRecordings := None;
     numRecordings := 0;
     remainingVisits := requestVisits;
     query_offset := fst builder;
     query_limit := snd builder;
     devSummary := newDeviceSummary;
     fetches := O;
     calls := [] |}.

(** The test of the [while]:
    [gotAllRecordings || remainingVisits > 0]. *)
Definition loop_test (s : LoopState DS) : bool :=
  JS.truthy_bool (gotAllRecordings s) || (remainingVisits s >? 0).

(** The fetch at the head of the body: count and rows while no count is
    known, rows only afterwards. *)
Definition fetch (s : LoopState DS) : Call * option Z * list Recording :=
  if JS.truthy_num (totalCount s)
  then (CallFindAll (query_offset s) (query_limit s),
        totalCount s,
        findAll source (fetches s) (query_offset s) (query_limit s))
  else
    let result :=
      findAndCountAll source (fetches s) (query_offset s) (query_limit s) in
    (CallFindAndCountAll (query_offset s) (query_limit s),
     Some (fst result),
     snd result).

(** One run of the loop body. *)
Definition body (s : LoopState DS) : Outcome DS :=
  let '(call, totalCount', recordings') := fetch s in
  let length := Z.of_nat (List.length recordings') in
  let numRecordings' := numRecordings s + length in
  let gotAll := JS.num_ge_array (length + query_offset s) recordings' in
  if length =? 0 then
    Break {| totalCount := totalCount';
             recordings := recordings';
             gotAllRecordings := Some gotAll;
             numRecordings := numRecordings';
             remainingVisits := remainingVisits s;
             query_offset := query_offset s;
             query_limit := query_limit s;
             devSummary := devSummary s;
             fetches := S (fetches s);
             calls := calls s ++ [call] |}
  else
    let filtered := map filterData recordings' in
    let offset0 := JS.or_zero (q_offset request) in
    let dev1 :=
      generateVisits filtered offset0 gotAll (q_user request)
                     (devSummary s) in
    let dev2 := if negb gotAll then checkForCompleteVisits dev1 else dev1 in
    let remaining := requestVisits - completeVisitsCount dev2 in
    Continue {| totalCount := totalCount';
                recordings := filtered;
                gotAllRecordings := Some gotAll;
                numRecordings := numRecordings';
                remainingVisits := remaining;
                query_offset := query_offset s + length;
                query_limit := Z.min (remaining * 2) queryMax;
                devSummary := dev2;
                fetches := S (fetches s);
                calls :=
                  calls s ++
                  [call;
                   CallGenerateVisits (List.length filtered) offset0 gotAll]
                  ++ (if negb gotAll then [CallCheckForCompleteVisits]
                      else [])
                  ++ [CallCompleteVisitsCount] |}.

(** The [while] loop; [None] when the fuel runs out before it ends. *)
Fixpoint loop (fuel : nat) (s : LoopState DS) : option (LoopState DS) :=
  if loop_test s then
    match fuel with
    | O => None
    | S fuel' =>
      match body s with
      | Break s' => Some s'
      | Continue s' => loop fuel' s'
      end
    end
  else Some s.

(** The state in which the loop test is evaluated for the [n]-th time
    (counting from 0), when the loop gets that far. *)
Fixpoint state_at (n : nat) : option (LoopState DS) :=
  match n with
  | O => Some initial
  | S k =>
    match state_at k with
    | Some s =>
      if loop_test s then
        match body s with
        | Continue s' => Some s'
        | Break _ => None
        end
      else None
    | None => None
    end
  end.

(** The state at the [n]-th iteration boundary: the state before the
    loop for [n = 0], and otherwise the state in which the [n]-th run of
    the body ends, at its end or at the [break]. *)
Definition boundary (n : nat) : option (LoopState DS) :=
  match n with
  | O => Some initial
  | S k =>
    match state_at k with
    | Some s => if loop_test s then Some (outcome_state (body s)) else None
    | None => None
    end
  end.

(** What follows the loop: the finalization, the sorted visits, the
    offset for the next query and the names of the audio files. *)
Definition finish (s : LoopState DS) : VisitsResult DS :=
  let gotAll := JS.truthy_bool (gotAllRecordings s) in
  let dev := if gotAll then markCompleted (devSummary s)
             else removeIncompleteVisits (devSummary s) in
  let audioFileIds := allAudioFileIds dev in
  let visits := JS.sort visit_comparefn (completeVisits dev) in
  let queryOffset :=
    match earliestIncompleteOffset dev with
    | Some offset => Some offset
    | None =>
      match rev visits with
      | oldest :: _ => Some (v_queryOffset oldest + 1)
      | [] => None
      end
    end in
  let audioFileNames := fold_left set_name (getMultiple audioFileIds) [] in
  let visits' := map (set_fileNames audioFileNames) visits in
  {| r_visits := visits';
     r_summary := dev;
     r_hasMoreVisits := negb gotAll;
     r_totalRecordings := totalCount s;
     r_queryOffset := queryOffset;
     r_numRecordings := numRecordings s;
     r_numVisits := Z.of_nat (List.length visits');
     r_calls :=
       calls s ++
       [if gotAll then CallMarkCompleted else CallRemoveIncompleteVisits;
        CallAllAudioFileIds;
        CallCompleteVisits;
        CallEarliestIncompleteOffset;
        CallGetMultiple audioFileIds] |}.

Definition queryVisits (fuel : nat) : option (VisitsResult DS) :=
  match loop fuel initial with
  | Some s => Some (finish s)
  | None => None
  end.
End QueryVisits.

(* ===================================================================== *)
(** * reportVisits                                                        *)
(* ===================================================================== *)

(** A row of the report.  A row keeps the record it is made from; of the
    cells of an audio-bait row, the name ([What]) and [Audio Played] are
    computed as [addAudioBaitRow] does, the date and time cells being the
    formatted [dateTime] of the event.  Rows of plain text are the device
    summary rows, the empty row and the header. *)
Inductive Row : Type :=
| RowCells (cells : list string)
| RowVisit (visit : Visit)
| RowEvent (event : VisitEvent)
| RowAudioBait (audioBait : AudioEvent) (what audioPlayed : JS.cell).

Definition visits_header : list string :=
  ["Visit ID"; "Group"; "Device"; "Type"; "AssumedTag"; "What"; "Rec ID";
   "Date"; "Start"; "End"; "Confidence"; "# Events"; "Audio Played";
   "URL"]%string.

Definition addVisitRow (out : list Row) (visit : Visit) : list Row :=
  JS.push out (RowVisit visit).

Definition addEventRow (out : list Row) (visit : Visit) (event : VisitEvent)
  : list Row :=
  JS.push out (RowEvent event).

(** The [Audio Played] cell: the file name, followed by the volume when
    there is one. *)
Definition audioPlayed_cell (audioBait : AudioEvent) : JS.cell :=
  if JS.truthy_num (ae_volume audioBait)
  then JS.CString
         (JS.cell_concat (ae_fileName audioBait)
            (" vol " ++ JS.num_to_string (JS.or_zero (ae_volume audioBait))))
  else ae_fileName audioBait.

Definition audioBaitRow (audioBait : AudioEvent) : Row :=
  RowAudioBait audioBait (ae_fileName audioBait) (audioPlayed_cell audioBait).

Definition addAudioBaitRow (out : list Row) (visit : Visit)
           (audioBait : AudioEvent) : list Row :=
  JS.push out (audioBaitRow audioBait).

(** The comparison function of [visit.audioBaitEvents.sort]:
    [moment(a.dateTime) > moment(b.dateTime) ? 1 : -1]. *)
Definition audio_comparefn (a b : AudioEvent) : Z :=
  if ae_dateTime a >? ae_dateTime b then 1 else -1.

(** The variables of the loop over one visit. *)
Record Cursor : Type := {
  c_out : list Row;
  c_audioEvent : option AudioEvent;
  c_audioEvents : list AudioEvent;
  c_audioTime : option Z
}.

(** [audioTime && audioTime.isAfter(event.start)]. *)
Definition audioBaitBefore (audioTime : option Z) (start : Z) : bool :=
  match audioTime with
  | Some t => t >? start
  | None => false
  end.

(** The inner [while]: [None] stands for a failure, which is either the
    fuel running out or [addAudioBaitRow] reading an [undefined] event. *)
Fixpoint bait_while (fuel : nat) (visit : Visit) (start : Z) (c : Cursor)
  : option Cursor :=
  if audioBaitBefore (c_audioTime c) start then
    match fuel, c_audioEvent c with
    | S fuel', Some audioEvent =>
      let out := addAudioBaitRow (c_out c) visit audioEvent in
      let '(next, rest) := JS.pop (c_audioEvents c) in
      bait_while fuel' visit start
        {| c_out := out;
           c_audioEvent := next;
           c_audioEvents := rest;
           c_audioTime := option_map ae_dateTime next |}
    | _, _ => None
    end
  else Some c.

(** The loop over the events of the visit. *)
Fixpoint events_loop (visit : Visit) (events : list VisitEvent) (c : Cursor)
  : option Cursor :=
  match events with
  | [] => Some c
  | event :: events' =>
    match bait_while (S (List.length (c_audioEvents c))) visit
                     (ve_start event) c with
    | Some c' =>
      events_loop visit events'
        {| c_out := addEventRow (c_out c') visit event;
           c_audioEvent := c_audioEvent c';
           c_audioEvents := c_audioEvents c';
           c_audioTime := c_audioTime c' |}
    | None => None
    end
  end.

(** The body of the loop over the visits: the rows of one visit are added
    to [out]. *)
Definition visit_rows (out : list Row) (visit : Visit) : option (list Row) :=
  let out := addVisitRow out visit in
  let sorted := JS.sort audio_comparefn (v_audioBaitEvents visit) in
  let '(audioEvent, audioEvents) := JS.pop sorted in
  match events_loop visit (v_events visit)
          {| c_out := out;
             c_audioEvent := audioEvent;
             c_audioEvents := audioEvents;
             c_audioTime := option_map ae_dateTime audioEvent |} with
  | Some c =>
    let audioEvents :=
      match c_audioEvent c with
      | Some audioEvent => JS.push (c_audioEvents c) audioEvent
      | None => c_audioEvents c
      end in
    Some (fold_left (fun out audioEvent => addAudioBaitRow out visit audioEvent)
                    (JS.reverse audioEvents) (c_out c))
  | None => None
  end.

Fixpoint visits_loop (visits : list Visit) (out : list Row)
  : option (list Row) :=
  match visits with
  | [] => Some out
  | visit :: visits' =>
    match visit_rows out visit with
    | Some out' => visits_loop visits' out'
    | None => None
    end
  end.

Section ReportVisits.
Context {DS : Type} `{DeviceSummaryOps DS}.
Variable source : Source.
Variable filterData : Recording -> Recording.
Variable getMultiple : list FileId -> list File.
(** [reportDeviceVisits(results.summary.deviceMap)]: the rows of the
    device summary, which are read off the device map of [Visits.ts]. *)
Variable reportDeviceVisits : DS -> list (list string).
Variable request : RecordingQuery.

Definition reportVisits (fuel : nat) : option (list Row) :=
  match queryVisits source filterData getMultiple request fuel with
  | Some results =>
    let out := map RowCells (reportDeviceVisits (r_summary results)) in
    let out := JS.push out (RowCells []) in
    let out := JS.push out (RowCells visits_header) in
    visits_loop (r_visits results) out
  | None => None
  end.
End ReportVisits.

(** ** The rows of a visit as a merge

    The rows that follow the visit row, written as a merge of the events
    of the visit with the audio events still to be shown, latest first.
    [visit_rows] is shown below to compute exactly these rows. *)

(** The longest prefix of a list whose elements pass a test, and the
    rest of the list. *)
Fixpoint span {A : Type} (f : A -> bool) (l : list A) : list A * list A :=
  match l with
  | [] => ([], [])
  | x :: l' =>
    if f x then let '(yes, rest) := span f l' in (x :: yes, rest)
    else ([], l)
  end.

Definition played_after (start : Z) (audioEvent : AudioEvent) : bool :=
  ae_dateTime audioEvent >? start.

Fixpoint merge_rows (events : list VisitEvent) (stack : list AudioEvent)
  : list Row :=
  match events with
  | [] => map audioBaitRow stack
  | event :: events' =>
    let '(before, rest) := span (played_after (ve_start event)) stack in
    map audioBaitRow before ++ RowEvent event :: merge_rows events' rest
  end.

(** The rows of one visit: its visit row, then the merge of its events
    with its audio events from the latest to the earliest. *)
Definition visit_block (visit : Visit) : list Row :=
  RowVisit visit ::
  merge_rows (v_events visit)
             (rev (JS.sort audio_comparefn (v_audioBaitEvents visit))).

(** The audio events a cursor has still to show, latest first: the event
    held in [audioEvent], then the array from its end. *)
Definition pending (c : Cursor) : list AudioEvent :=
  match c_audioEvent c with
  | Some audioEvent => audioEvent :: rev (c_audioEvents c)
  | None => []
  end.

(** What the loop keeps true of its variables: [audioTime] is the time of
    the held event, and no event is held only when the array is empty. *)
Definition cursor_ok (c : Cursor) : Prop :=
  c_audioTime c = option_map ae_dateTime (c_audioEvent c) /\
  (c_audioEvent c = None -> c_audioEvents c = []).

(** The time a row stands for: the start of an event, the playback time of
    an audio bait. *)
Definition row_time (r : Row) : option Z :=
  match r with
  | RowEvent event => Some (ve_start event)
  | RowAudioBait audioBait _ _ => Some (ae_dateTime audioBait)
  | _ => None
  end.

Definition is_timed_row (r : Row) : bool :=
  match row_time r with
  | Some _ => true
  | None => false
  end.

Fixpoint row_times (rows : list Row) : list Z :=
  match rows with
  | [] => []
  | r :: rows' =>
    match row_time r with
    | Some t => t :: row_times rows'
    | None => row_times rows'
    end
  end.

Definition is_bait_row (r : Row) : bool :=
  match r with
  | RowAudioBait _ _ _ => true
  | _ => false
  end.

(** The audio events that the audio-bait rows of a list of rows show. *)
Fixpoint bait_events (rows : list Row) : list AudioEvent :=
  match rows with
  | [] => []
  | RowAudioBait audioBait _ _ :: rows' => audioBait :: bait_events rows'
  | _ :: rows' => bait_events rows'
  end.

(* ===================================================================== *)
(** * A device summary and sources to run the query on                    *)
(* ===================================================================== *)

Module Model.

(** The largest gap between two recordings of one visit, in milliseconds. *)
Definition visit_interval : Z := 600000.

(** Modelled from the spec: the device summary of [Visits.ts] is not part
    of the sources at hand.  The summary keeps its visits in the order
    they are opened, counts the recordings it has consumed, and remembers
    the earliest offset of the visits it discarded. *)
Record Summary : Type := {
  s_visits : list Visit;
  s_consumed : Z;
  s_resume : option Z
}.

Definition min_offset (a : option Z) (b : Z) : option Z :=
  match a with
  | Some x => Some (Z.min x b)
  | None => Some b
  end.

Definition event_of (rec : Recording) : VisitEvent :=
  {| ve_recID := rec_id rec;
     ve_trackID := 0;
     ve_start := rec_dateTime rec;
     ve_end := rec_dateTime rec;
     ve_what := ""%string |}.

Definition open_visit (id position : Z) (rec : Recording) : Visit :=
  {| visitID := id;
     v_deviceId := rec_deviceId rec;
     v_start := rec_dateTime rec;
     v_end := rec_dateTime rec;
     v_events := [event_of rec];
     v_audioBaitEvents := rec_audioEvents rec;
     v_queryOffset := position;
     v_complete := false |}.

Definition extend_visit (visit : Visit) (position : Z) (rec : Recording)
  : Visit :=
  {| visitID := visitID visit;
     v_deviceId := v_deviceId visit;
     v_start := rec_dateTime rec;
     v_end := v_end visit;
     v_events := v_events visit ++ [event_of rec];
     v_audioBaitEvents := v_audioBaitEvents visit ++ rec_audioEvents rec;
     v_queryOffset := position;
     v_complete := false |}.

Definition isWithinVisitInterval (visit : Visit) (rec : Recording) : bool :=
  v_start visit - rec_dateTime rec <=? visit_interval.

(** Modelled from the spec: the visit builder.  A recording extends the
    open visit of its device when it lies within the visit interval of it,
    and opens a new visit otherwise. *)
Definition consume (base : Z) (s : Summary) (rec : Recording) : Summary :=
  let position := base + s_consumed s in
  let opened :=
    s_visits s
    ++ [open_visit (Z.of_nat (List.length (s_visits s))) position rec] in
  let visits :=
    match rev (s_visits s) with
    | current :: older =>
      if (v_deviceId current =? rec_deviceId rec)
           && negb (v_complete current)
           && isWithinVisitInterval current rec
      then rev older ++ [extend_visit current position rec]
      else opened
    | [] => opened
    end in
  {| s_visits := visits;
     s_consumed := s_consumed s + 1;
     s_resume := s_resume s |}.

Definition set_complete (b : bool) (visit : Visit) : Visit :=
  {| visitID := visitID visit;
     v_deviceId := v_deviceId visit;
     v_start := v_start visit;
     v_end := v_end visit;
     v_events := v_events visit;
     v_audioBaitEvents := v_audioBaitEvents visit;
     v_queryOffset := v_queryOffset visit;
     v_complete := b |}.

(** Modelled from the spec: a visit is complete once an older recording of
    its device has been seen, that is once a later visit of the device
    exists. *)
Fixpoint check_complete (visits : list Visit) : list Visit :=
  match visits with
  | [] => []
  | visit :: later =>
    (if existsb (fun w => v_deviceId w =? v_deviceId visit) later
     then set_complete true visit
     else visit) :: check_complete later
  end.

Definition incomplete (visit : Visit) : bool := negb (v_complete visit).

Definition earliest (resume : option Z) (visits : list Visit) : option Z :=
  fold_left min_offset (map v_queryOffset (filter incomplete visits)) resume.

Fixpoint dedup (ids : list Z) : list Z :=
  match ids with
  | [] => []
  | id :: ids' =>
    if existsb (Z.eqb id) ids' then dedup ids' else id :: dedup ids'
  end.

(** Modelled from the spec: the operations of the device summary. *)
#[export] Instance summary_ops : DeviceSummaryOps Summary := {
  newDeviceSummary := {| s_visits := []; s_consumed := 0; s_resume := None |};
  generateVisits rows offset gotAll user s := fold_left (consume offset) rows s;
  checkForCompleteVisits s :=
    {| s_visits := check_complete (s_visits s);
       s_consumed := s_consumed s;
       s_resume := s_resume s |};
  completeVisitsCount s :=
    Z.of_nat (List.length (filter v_complete (s_visits s)));
  markCompleted s :=
    {| s_visits := map (set_complete true) (s_visits s);
       s_consumed := s_consumed s;
       s_resume := s_resume s |};
  removeIncompleteVisits s :=
    {| s_visits := filter v_complete (s_visits s);
       s_consumed := s_consumed s;
       s_resume := earliest (s_resume s) (s_visits s) |};
  allAudioFileIds s :=
    dedup (map ae_fileId (flat_map v_audioBaitEvents (s_visits s)));
  completeVisits s := filter v_complete (s_visits s);
  earliestIncompleteOffset s := earliest (s_resume s) (s_visits s)
}.

(** A source that pages through a fixed list of recordings and reports
    [count] as their number. *)
Definition page (db : list Recording) (offset limit : Z) : list Recording :=
  firstn (Z.to_nat limit) (skipn (Z.to_nat offset) db).

Definition paged_source (count : Z) (db : list Recording) : Source :=
  {| findAndCountAll := fun _ offset limit => (count, page db offset limit);
     findAll := fun _ offset limit => page db offset limit |}.

Definition no_filter (rec : Recording) : Recording := rec.

(** A file lookup that knows the files of [known] only. *)
Definition lookup_in (known : list File) (ids : list FileId) : list File :=
  filter (fun f => existsb (Z.eqb (f_id f)) ids) known.

Definition no_device_rows (s : Summary) : list (list string) := [].

Definition bait (id time file : Z) (volume : option Z) : AudioEvent :=
  {| ae_id := id;
     ae_dateTime := time;
     ae_fileId := file;
     ae_volume := volume;
     ae_fileName := JS.CUndefined |}.

Definition recording (id device time : Z) (audio : list AudioEvent)
  : Recording :=
  {| rec_id := id;
     rec_deviceId := device;
     rec_dateTime := time;
     rec_audioEvents := audio |}.

(** Three recordings of one device, far apart: three visits. *)
Definition three_recordings : list Recording :=
  [recording 1 7 3000000 []; recording 2 7 2000000 [];
   recording 3 7 1000000 []].

(** Two devices with one recording each, taken at the same time. *)
Definition two_devices : list Recording :=
  [recording 1 7 1000000 []; recording 2 8 1000000 []].

(** One recording with a bait of file 42 played with it. *)
Definition baited : list Recording :=
  [recording 1 7 1000000 [bait 1 999000 42 (Some 5)]].

Definition query_all : RecordingQuery :=
  {| q_offset := None; q_limit := None; q_user := 1 |}.

Definition query_first (limit : Z) : RecordingQuery :=
  {| q_offset := None; q_limit := Some limit; q_user := 1 |}.

(** The visit of the third scenario of the report: events at 10 and 0, in
    that order, and an audio bait at 5. *)
Definition event_at (t : Z) : VisitEvent :=
  {| ve_recID := t; ve_trackID := 1; ve_start := t; ve_end := t;
     ve_what := ""%string |}.

Definition scenario_visit : Visit :=
  {| visitID := 1;
     v_deviceId := 7;
     v_start := 0;
     v_end := 10;
     v_events := [event_at 10; event_at 0];
     v_audioBaitEvents := [bait 1 5 42 None];
     v_queryOffset := 0;
     v_complete := true |}.

Definition run_query (source : Source) (known : list File)
           (request : RecordingQuery) (fuel : nat)
  : option (VisitsResult Summary) :=
  queryVisits source no_filter (lookup_in known) request fuel.

Definition run_report (source : Source) (known : list File)
           (request : RecordingQuery) (fuel : nat) : option (list Row) :=
  reportVisits source no_filter (lookup_in known) no_device_rows request fuel.

End Model.

(* ===================================================================== *)
(** * Tags with legacy field names                                        *)
(* ===================================================================== *)

(** A plain object with named fields, as a tag of a request body or of a
    query result is: the fields in the order they were added, each name
    once.  A field that is not there reads as [undefined]. *)
Module Obj.

Inductive value : Type :=
| VUndefined
| VNull
| VBool (b : bool)
| VNum (n : Z)
| VStr (s : string)
| VObject (id : nat).

Definition truthy (v : value) : bool :=
  match v with
  | VUndefined | VNull => false
  | VBool b => b
  | VNum n => negb (n =? 0)
  | VStr s => negb (String.eqb s "")
  | VObject _ => true
  end.

Definition t : Type := list (string * value).

(** [o[k]]. *)
Fixpoint get (o : t) (k : string) : value :=
  match o with
  | [] => VUndefined
  | (k', v) :: o' => if String.eqb k' k then v else get o' k
  end.

(** [o[k] = v]: an existing field keeps its place, a new one goes last. *)
Fixpoint set (o : t) (k : string) (v : value) : t :=
  match o with
  | [] => [(k, v)]
  | (k', v') :: o' =>
    if String.eqb k' k then (k, v) :: o' else (k', v') :: set o' k v
  end.

(** [delete o[k]]. *)
Definition delete (o : t) (k : string) : t :=
  filter (fun p => negb (String.eqb (fst p) k)) o.

(** [k in o], for an own field. *)
Definition has (o : t) (k : string) : bool :=
  existsb (fun p => String.eqb (fst p) k) o.

Definition keys (o : t) : list string := map fst o.

End Obj.

(** What a call that may throw leaves behind: the object as it is after
    the call, and the message of the [ClientError] when one is thrown. *)
Record Ran : Type := {
  after : Obj.t;
  thrown : option string
}.

Definition both_fields_message (oldName newName : string) : string :=
  "can't specify both '" ++ oldName ++ "' and '" ++ newName
  ++ "' fields at the same time".

Definition moveLegacyField (o : Obj.t) (oldName newName : string) : Ran :=
  if Obj.truthy (Obj.get o oldName) then
    if Obj.truthy (Obj.get o newName) then
      {| after := o;
         thrown := Some (both_fields_message oldName newName) |}
    else
      {| after := Obj.delete (Obj.set o newName (Obj.get o oldName)) oldName;
         thrown := None |}
  else {| after := o; thrown := None |}.

Definition handleLegacyTagFieldsForCreate (tag : Obj.t) : Ran :=
  let moved := moveLegacyField tag "animal" "what" in
  match thrown moved with
  | Some _ => moved
  | None => moveLegacyField (after moved) "event" "detail"
  end.

Definition handleLegacyTagFieldsForGet (tag : Obj.t) : Obj.t :=
  let tag := Obj.set tag "animal" (Obj.get tag "what") in
  Obj.set tag "event" (Obj.get tag "detail").

(* ===================================================================== *)
(** * Reprocessing recordings                                             *)
(* ===================================================================== *)

Definition RecordingId := Z.

(** The response of [reprocessRecording]. *)
Record ReprocessOne : Type := {
  one_statusCode : Z;
  one_messages : list string;
  one_recordingId : RecordingId
}.

(** The response [reprocessAll] sends. *)
Record ReprocessResponse : Type := {
  rp_statusCode : Z;
  rp_messages : list string;
  rp_reprocessed : list RecordingId;
  rp_fail : list RecordingId
}.

Definition statusCode_Success : Z := 1.
Definition statusCode_Fail : Z := 2.
Definition statusCode_Both : Z := 3.

Definition getReprocessMessage (status : Z) : string :=
  if status =? statusCode_Success
  then "All recordings scheduled for reprocessing"
  else if status =? statusCode_Fail
  then "Recordings could not be scheduled for reprocessing"
  else if status =? statusCode_Both
  then "Some recordings could not be scheduled for reprocessing"
  else "".

Section Reprocess.
(** [models.Recording.get(user, id, RecordingPermission.UPDATE)] for the
    user of the request: whether the [n]-th lookup finds the recording. *)
Variable recording_get : nat -> RecordingId -> bool.

(** [reprocessRecording], as the [n]-th lookup: the response, and the
    recordings on which [reprocess(user)] was called. *)
Definition reprocessRecording (n : nat) (recording_id : RecordingId)
  : ReprocessOne * list RecordingId :=
  if negb (recording_get n recording_id) then
    ({| one_statusCode := 400;
        one_messages :=
          [("No such recording: " ++ JS.num_to_string recording_id)%string];
        one_recordingId := recording_id |}, [])
  else
    ({| one_statusCode := 200;
        one_messages := ["Recording scheduled for reprocessing"%string];
        one_recordingId := recording_id |}, [recording_id]).

(** The variables of the loop of [reprocessAll]. *)
Record ReprocessState : Type := {
  responseMessage : ReprocessResponse;
  status : Z;
  reprocess_calls : list RecordingId
}.

Definition reprocess_step (i : nat) (st : ReprocessState)
           (recording_id : RecordingId) : ReprocessState :=
  let '(resp, called) := reprocessRecording i recording_id in
  let m := responseMessage st in
  if negb (one_statusCode resp =? 200) then
    {| responseMessage :=
         {| rp_statusCode := one_statusCode resp;
            rp_messages :=
              JS.push (rp_messages m) (hd ""%string (one_messages resp));
            rp_reprocessed := rp_reprocessed m;
            rp_fail := JS.push (rp_fail m) (one_recordingId resp) |};
       status := Z.lor (status st) statusCode_Fail;
       reprocess_calls := reprocess_calls st ++ called |}
  else
    {| responseMessage :=
         {| rp_statusCode := rp_statusCode m;
            rp_messages := rp_messages m;
            rp_reprocessed :=
              JS.push (rp_reprocessed m) (one_recordingId resp);
            rp_fail := rp_fail m |};
       status := Z.lor (status st) statusCode_Success;
       reprocess_calls := reprocess_calls st ++ called |}.

(** The [for] loop from index [i] on. *)
Fixpoint reprocess_loop (i : nat) (recordings : list RecordingId)
         (st : ReprocessState) : ReprocessState :=
  match recordings with
  | [] => st
  | recording_id :: rest =>
    reprocess_loop (S i) rest (reprocess_step i st recording_id)
  end.

(** [reprocessAll]: the response sent, and the recordings on which
    [reprocess(user)] was called. *)
Definition reprocessAll (recordings : list RecordingId)
  : ReprocessResponse * list RecordingId :=
  let st :=
    reprocess_loop 0 recordings
      {| responseMessage :=
           {| rp_statusCode := 200;
              rp_messages := [];
              rp_reprocessed := [];
              rp_fail := [] |};
         status := 0;
         reprocess_calls := [] |} in
  let m := responseMessage st in
  ({| rp_statusCode := rp_statusCode m;
      rp_messages := getReprocessMessage (status st) :: rp_messages m;
      rp_reprocessed := rp_reprocessed m;
      rp_fail := rp_fail m |},
   reprocess_calls st).
End Reprocess.

(* ===================================================================== *)
(** * The latest event of a device                                        *)
(* ===================================================================== *)

(** A result that may be [null], [undefined] or a value. *)
Inductive maybe (A : Type) : Type :=
| Null
| Undefined
| Found (a : A).
Arguments Null {A}.
Arguments Undefined {A}.
Arguments Found {A} _.

(** [findLatestEvent]: [events] is [None] when it is [null] or
    [undefined].  The dates of the events are compared by their
    timestamps. *)
Definition findLatestEvent (events : option (list AudioEvent))
  : maybe AudioEvent :=
  match events with
  | None => Null
  | Some [] => Undefined
  | Some (first :: rest) =>
    Found
      (fold_left
         (fun latest event =>
            if ae_dateTime event >? ae_dateTime latest then event else latest)
         (first :: rest) first)
  end.

(* ===================================================================== *)
(** * Reading the calls and the rows                                      *)
(* ===================================================================== *)

(** The number of rows handed to [generateVisits] by the calls made. *)
Fixpoint rows_generated (cs : list Call) : Z :=
  match cs with
  | [] => 0
  | CallGenerateVisits rows _ _ :: cs' => Z.of_nat rows + rows_generated cs'
  | _ :: cs' => rows_generated cs'
  end.

(** The events that the event rows of a list of rows show. *)
Fixpoint row_events (rows : list Row) : list VisitEvent :=
  match rows with
  | [] => []
  | RowEvent event :: rows' => event :: row_events rows'
  | _ :: rows' => row_events rows'
  end.

(** The visits that the visit rows of a list of rows show. *)
Fixpoint row_visits (rows : list Row) : list Visit :=
  match rows with
  | [] => []
  | RowVisit visit :: rows' => visit :: row_visits rows'
  | _ :: rows' => row_visits rows'
  end.

(** A source that has no rows at or beyond offset [size]. *)
Definition source_ends_at (source : Source) (size : Z) : Prop :=
  forall n offset limit,
    size <= offset ->
    findAll source n offset limit = [] /\
    snd (findAndCountAll source n offset limit) = [].

(* ===================================================================== *)
(** * Matching a recording to a station                                   *)
(* ===================================================================== *)

Definition MIN_STATION_SEPARATION_METERS : Q := 60.
Definition MAX_DISTANCE_FROM_STATION_FOR_RECORDING : Q :=
  (MIN_STATION_SEPARATION_METERS / 2)%Q.

Definition Coordinates : Type := (Q * Q)%type.

Record Station : Type := {
  st_id : Z;
  st_coordinates : Coordinates
}.

(** An entry of [stationDistances].  A distance is a number, [None] when
    it is NaN.  The code compares distances and takes the sign of the
    difference of two of them; for the numbers of JavaScript both agree
    with the comparison and the sign of the exact values. *)
Record StationDistance : Type := {
  distanceToStation : option Q;
  station : Station
}.

(** [distanceToStation <= MAX_DISTANCE_FROM_STATION_FOR_RECORDING]. *)
Definition within_station_distance (sd : StationDistance) : bool :=
  match distanceToStation sd with
  | Some d => Qle_bool d MAX_DISTANCE_FROM_STATION_FOR_RECORDING
  | None => false
  end.

(** The comparison function [b.distanceToStation - a.distanceToStation],
    as the sort reads it: by its sign, a NaN counting as 0. *)
Definition distance_comparefn (a b : StationDistance) : Z :=
  match distanceToStation b, distanceToStation a with
  | Some db, Some da => Z.sgn (Qnum (db - da)%Q)
  | _, _ => 0
  end.

Section MatchStation.
(** [latLngApproxDistance], which is computed with the trigonometric
    functions of floating point, is taken as it comes; and the stations
    of the group of the recording, which are fetched when the caller
    gives none. *)
Variable latLngApproxDistance : Coordinates -> Coordinates -> option Q.
Variable group_stations : list Station.

Definition station_distances (location : Coordinates)
           (stations : list Station) : list StationDistance :=
  map (fun st =>
         {| distanceToStation :=
              latLngApproxDistance (st_coordinates st) location;
            station := st |})
      stations.

(** [tryToMatchRecordingToStation]: [location] is the location of the
    recording when it has one, [stations] the stations the caller
    passes; the result is the station or [null]. *)
Definition tryToMatchRecordingToStation
           (location : option Coordinates) (stations : option (list Station))
  : option Station :=
  match location with
  | None => None
  | Some location =>
    let stations :=
      match stations with
      | Some stations => stations
      | None => group_stations
      end in
    let stationDistances := station_distances location stations in
    let validStationDistances :=
      filter within_station_distance stationDistances in
    let sorted := JS.sort distance_comparefn validStationDistances in
    match fst (JS.pop sorted) with
    | Some closest => Some (station closest)
    | None => None
    end
  end.
End MatchStation.

(* ===================================================================== *)
(** * The tags of a recording in the report                               *)
(* ===================================================================== *)

(** The subject of a tag, [tag.what || tag.detail]: a text, or [null]
    ([None]) when the tag has neither.  [what] and [detail] are texts
    that may be [null]. *)
Definition subject : Type := option string.

Definition tag_subject (what detail : option string) : subject :=
  match what with
  | Some w => if String.eqb w "" then detail else Some w
  | None => detail
  end.

(** The text the sort compares a subject by: [null] reads as its name. *)
Definition subject_text (s : subject) : string :=
  match s with
  | Some t => t
  | None => "null"
  end.

(** The text [join] prints for a subject: nothing for [null]. *)
Definition subject_joined (s : subject) : string :=
  match s with
  | Some t => t
  | None => ""
  end.

(** The comparison of a sort without a comparison function: by the texts
    of the elements, a text being the sequence of its code units. *)
Definition default_comparefn (x y : subject) : Z :=
  if String.ltb (subject_text x) (subject_text y) then -1
  else if String.ltb (subject_text y) (subject_text x) then 1
  else 0.

(** [Array.prototype.join]. *)
Fixpoint join (separator : string) (l : list string) : string :=
  match l with
  | [] => ""
  | [x] => x
  | x :: l' => x ++ separator ++ join separator l'
  end.

(** [formatTags]: [tags] are the elements of the set or array, in their
    order. *)
Definition formatTags (tags : list subject) : string :=
  join "+" (map subject_joined (JS.sort default_comparefn tags)).

Definition subject_eqb (x y : subject) : bool :=
  match x, y with
  | Some a, Some b => String.eqb a b
  | None, None => true
  | _, _ => false
  end.

(** [Set.prototype.add]: the elements of a set, in the order they were
    added. *)
Definition set_add (s : list subject) (x : subject) : list subject :=
  if existsb (subject_eqb x) s then s else s ++ [x].

Record TrackTag : Type := {
  tt_what : option string;
  tt_detail : option string;
  tt_automatic : bool
}.

(** The loops of [reportRecordings] over the tracks of a recording and
    their tags, which fill [automatic_track_tags] and
    [human_track_tags]. *)
Definition add_track_tag (sets : list subject * list subject)
           (tag : TrackTag) : list subject * list subject :=
  let subject := tag_subject (tt_what tag) (tt_detail tag) in
  if tt_automatic tag
  then (set_add (fst sets) subject, snd sets)
  else (fst sets, set_add (snd sets) subject).

Definition track_tag_sets (tracks : list (list TrackTag))
  : list subject * list subject :=
  fold_left (fun sets track => fold_left add_track_tag track sets)
            tracks ([], []).

(* ===================================================================== *)
(** * Facts about lists in order                                          *)
(* ===================================================================== *)

Section Ordered.
Context {A : Type} (R : A -> A -> Prop).

Lemma StronglySorted_app_intro (l1 l2 : list A) :
  StronglySorted R l1 -> StronglySorted R l2 ->
  (forall x y, In x l1 -> In y l2 -> R x y) ->
  StronglySorted R (l1 ++ l2).
Proof.
  induction l1 as [|a l1 IH]; intros S1 S2 Hc; simpl; [exact S2|].
  apply StronglySorted_inv in S1 as [S1 Fa].
  constructor.
  - apply IH; auto. intros x y Hx Hy. apply Hc; simpl; auto.
  - apply Forall_app. split; [exact Fa|].
    apply Forall_forall. intros y Hy. apply Hc; simpl; auto.
Qed.

Lemma StronglySorted_app_inv (l1 l2 : list A) :
  StronglySorted R (l1 ++ l2) ->
  StronglySorted R l1 /\ StronglySorted R l2 /\
  (forall x y, In x l1 -> In y l2 -> R x y).
Proof.
  induction l1 as [|a l1 IH]; simpl; intros S.
  - repeat split; [constructor | exact S | intros x y []].
  - apply StronglySorted_inv in S as [S Fa].
    destruct (IH S) as (S1 & S2 & Hc).
    apply Forall_app in Fa as [Fa1 Fa2].
    repeat split; [constructor; assumption | exact S2 |].
    intros x y [<-|Hx] Hy.
    + rewrite Forall_forall in Fa2. auto.
    + auto.
Qed.

Lemma StronglySorted_nth (l : list A) (d : A) :
  StronglySorted R l ->
  forall i j, (i < j < List.length l)%nat -> R (nth i l d) (nth j l d).
Proof.
  induction 1 as [|a l S IH Fa]; intros i j Hij; simpl in *; [lia|].
  destruct i as [|i], j as [|j]; try lia.
  - rewrite Forall_forall in Fa. apply Fa, nth_In. lia.
  - apply IH. lia.
Qed.
End Ordered.

Lemma StronglySorted_impl {A : Type} (R R' : A -> A -> Prop) (l : list A) :
  (forall x y, R x y -> R' x y) ->
  StronglySorted R l -> StronglySorted R' l.
Proof.
  intros I. induction 1 as [|a l S IH F]; constructor; auto.
  eapply Forall_impl; [|exact F]. auto.
Qed.

Lemma StronglySorted_rev_flip {A : Type} (R : A -> A -> Prop) (l : list A) :
  StronglySorted R l -> StronglySorted (fun x y => R y x) (rev l).
Proof.
  induction 1 as [|a l S IH Fa]; simpl; [constructor|].
  apply StronglySorted_app_intro; [exact IH | repeat constructor |].
  intros x y Hx [<-|[]].
  rewrite Forall_forall in Fa. apply Fa, in_rev, Hx.
Qed.

Lemma StronglySorted_map_iff {A B : Type} (f : A -> B) (R : B -> B -> Prop)
      (l : list A) :
  StronglySorted R (map f l) <-> StronglySorted (fun x y => R (f x) (f y)) l.
Proof.
  induction l as [|a l IH]; simpl.
  - split; constructor.
  - split; intros S; apply StronglySorted_inv in S as [S Fa];
      constructor; try (apply IH; exact S).
    + rewrite Forall_map in Fa. exact Fa.
    + rewrite Forall_map. exact Fa.
Qed.

(* ===================================================================== *)
(** * The sort puts an array in the order of its comparison function      *)
(* ===================================================================== *)

Section ArraySortFacts.
Context {A : Type} (comparefn : A -> A -> Z) (key : A -> Z).
(** The comparison function orders by a key and never reports a tie:
    it is negative exactly when the first key is not the larger. *)
Hypothesis comparefn_key :
  forall a b, (comparefn a b <? 0) = (key a <=? key b).

Local Abbreviation ascending := (ascending_by key).
Local Abbreviation descending := (descending_by key).

Lemma comparefn_nonneg a b : (comparefn a b >=? 0) = (key b <? key a).
Proof.
  rewrite Z.geb_leb, Z.leb_antisym, comparefn_key, Z.ltb_antisym.
  reflexivity.
Qed.

Lemma run_extend_app d previous l run rest :
  JS.run_extend comparefn d previous l = (run, rest) -> l = run ++ rest.
Proof.
  revert previous run rest.
  induction l as [|x l IH]; simpl; intros previous run rest E.
  - inversion E. reflexivity.
  - destruct (if d then _ else _).
    + inversion E. reflexivity.
    + destruct (JS.run_extend comparefn d x l) as [run' rest'] eqn:E'.
      inversion E; subst. simpl. f_equal. eapply IH, E'.
Qed.

Lemma run_extend_descending previous l run rest :
  JS.run_extend comparefn true previous l = (run, rest) ->
  descending (previous :: run).
Proof.
  revert previous run rest.
  induction l as [|x l IH]; simpl; intros previous run rest E.
  - inversion E. repeat constructor.
  - rewrite comparefn_nonneg in E.
    destruct (key previous <? key x) eqn:C.
    + inversion E. repeat constructor.
    + destruct (JS.run_extend comparefn true x l) as [run' rest'] eqn:E'.
      inversion E; subst. apply Z.ltb_ge in C.
      pose proof (IH _ _ _ E') as S.
      constructor; [exact S|].
      apply StronglySorted_inv in S as [_ Fx].
      constructor; [exact C|].
      eapply Forall_impl; [|exact Fx]. simpl. intros; lia.
Qed.

Lemma run_extend_ascending previous l run rest :
  JS.run_extend comparefn false previous l = (run, rest) ->
  ascending (previous :: run).
Proof.
  revert previous run rest.
  induction l as [|x l IH]; simpl; intros previous run rest E.
  - inversion E. repeat constructor.
  - rewrite comparefn_key in E.
    destruct (key x <=? key previous) eqn:C.
    + inversion E. repeat constructor.
    + destruct (JS.run_extend comparefn false x l) as [run' rest'] eqn:E'.
      inversion E; subst. apply Z.leb_gt in C.
      pose proof (IH _ _ _ E') as S.
      constructor; [exact S|].
      apply StronglySorted_inv in S as [_ Fx].
      constructor; [lia|].
      eapply Forall_impl; [|exact Fx]. simpl. intros; lia.
Qed.

Lemma countAndMakeRun_spec l run rest :
  JS.countAndMakeRun comparefn l = (run, rest) ->
  ascending run /\ Permutation l (run ++ rest).
Proof.
  unfold JS.countAndMakeRun.
  destruct l as [|x0 [|x1 l]]; intros E.
  - inversion E. split; constructor.
  - inversion E. split; repeat constructor.
  - destruct (JS.run_extend comparefn (comparefn x1 x0 <? 0) x1 l)
      as [run' rest'] eqn:E'.
    pose proof (run_extend_app _ _ _ _ _ E') as ->.
    rewrite comparefn_key in E, E'.
    destruct (key x1 <=? key x0) eqn:C; inversion E; subst; clear E.
    + apply Z.leb_le in C.
      pose proof (run_extend_descending _ _ _ _ E') as S.
      split.
      * change ((rev run' ++ [x1]) ++ [x0]) with (rev (x0 :: x1 :: run')).
        apply (StronglySorted_rev_flip (fun x y => key y <= key x)).
        constructor; [exact S|].
        constructor; [exact C|].
        apply StronglySorted_inv in S as [_ Fx].
        eapply Forall_impl; [|exact Fx]. simpl. intros; lia.
      * change (Permutation ((x0 :: x1 :: run') ++ rest)
                            (rev (x0 :: x1 :: run') ++ rest)).
        apply Permutation_app_tail, Permutation_rev.
    + apply Z.leb_gt in C.
      pose proof (run_extend_ascending _ _ _ _ E') as S.
      split; [|apply Permutation_refl].
      constructor; [exact S|].
      constructor; [lia|].
      apply StronglySorted_inv in S as [_ Fx].
      eapply Forall_impl; [|exact Fx]. simpl. intros; lia.
Qed.

(** The binary search finds the place that splits the sorted prefix into
    the elements with a smaller key and the others. *)
Lemma bsearch_spec pivot work :
  ascending work ->
  forall fuel left right,
    (left <= right <= List.length work)%nat ->
    (right - left <= fuel)%nat ->
    (forall i, (i < left)%nat -> key (nth i work pivot) < key pivot) ->
    (forall i, (right <= i < List.length work)%nat ->
               key pivot <= key (nth i work pivot)) ->
    let p := JS.bsearch comparefn fuel pivot work left right in
    (p <= List.length work)%nat /\
    (forall i, (i < p)%nat -> key (nth i work pivot) < key pivot) /\
    (forall i, (p <= i < List.length work)%nat ->
               key pivot <= key (nth i work pivot)).
Proof.
  intros S.
  induction fuel as [|fuel IH]; intros left right B F L U;
    cbn [JS.bsearch].
  - assert (left = right) by lia. subst right.
    repeat split; [lia | exact L | exact U].
  - destruct (left <? right)%nat eqn:C.
    + apply Nat.ltb_lt in C.
      set (mid := (left + (right - left) / 2)%nat).
      assert (Hmid : (left <= mid < right)%nat).
      { unfold mid. split; [lia|].
        assert ((right - left) / 2 < right - left)%nat
          by (apply Nat.div_lt; lia).
        lia. }
      rewrite comparefn_key.
      destruct (key pivot <=? key (nth mid work pivot)) eqn:O.
      * apply Z.leb_le in O.
        apply IH; [lia | lia | exact L |].
        intros i Hi. destruct (Nat.eq_dec i mid) as [->|Ne]; [exact O|].
        pose proof (StronglySorted_nth _ work pivot S mid i) as M.
        simpl in M. specialize (M ltac:(lia)). lia.
      * apply Z.leb_gt in O.
        apply IH; [lia | lia | | exact U].
        intros i Hi.
        destruct (Nat.eq_dec i mid) as [->|Ne]; [lia|].
        pose proof (StronglySorted_nth _ work pivot S i mid) as M.
        simpl in M. specialize (M ltac:(lia)). lia.
    + apply Nat.ltb_ge in C. assert (left = right) by lia. subst right.
      repeat split; [lia | exact L | exact U].
Qed.

Lemma insert_at_perm i (x : A) l :
  Permutation (JS.insert_at i x l) (x :: l).
Proof.
  unfold JS.insert_at. symmetry.
  rewrite <- (firstn_skipn i l) at 1. apply Permutation_middle.
Qed.

Lemma insert_sorted pivot work :
  ascending work ->
  ascending
    (JS.insert_at
       (JS.bsearch comparefn (List.length work) pivot work 0
                   (List.length work))
       pivot work).
Proof.
  intros S.
  destruct (bsearch_spec pivot work S (List.length work) 0
                         (List.length work))
    as (Hp & Hlt & Hge); try lia.
  set (p := JS.bsearch _ _ _ _ _ _) in *.
  unfold JS.insert_at.
  pose proof S as S'. unfold ascending in S'.
  rewrite <- (firstn_skipn p work) in S'.
  apply StronglySorted_app_inv in S' as (S1 & S2 & Hc).
  apply StronglySorted_app_intro; [exact S1| |].
  - constructor; [exact S2|].
    apply Forall_forall. intros y Hy.
    destruct (In_nth _ _ pivot Hy) as (i & Hi & <-).
    rewrite nth_skipn. rewrite length_skipn in Hi. apply Hge. lia.
  - intros x y Hx [<-|Hy]; [|auto].
    destruct (In_nth _ _ pivot Hx) as (i & Hi & <-).
    rewrite length_firstn in Hi.
    rewrite nth_firstn.
    assert (C : (i <? p)%nat = true) by (apply Nat.ltb_lt; lia).
    rewrite C. specialize (Hlt i ltac:(lia)). lia.
Qed.

Lemma binaryInsertionSort_spec rest :
  forall sorted,
    ascending sorted ->
    ascending (JS.binaryInsertionSort comparefn sorted rest) /\
    Permutation (sorted ++ rest)
                (JS.binaryInsertionSort comparefn sorted rest).
Proof.
  induction rest as [|pivot rest IH]; intros sorted S; simpl.
  - rewrite app_nil_r. split; [exact S | apply Permutation_refl].
  - destruct (IH _ (insert_sorted pivot sorted S)) as [S' P'].
    split; [exact S'|].
    etransitivity; [|exact P'].
    apply Permutation_sym.
    etransitivity;
      [apply Permutation_app_tail, insert_at_perm|].
    simpl. apply Permutation_middle.
Qed.

Lemma sort_spec l :
  ascending (JS.sort comparefn l) /\ Permutation l (JS.sort comparefn l).
Proof.
  unfold JS.sort.
  destruct (JS.countAndMakeRun comparefn l) as [run rest] eqn:E.
  destruct (countAndMakeRun_spec _ _ _ E) as [S P].
  destruct (binaryInsertionSort_spec rest run S) as [S' P'].
  split; [exact S'|]. etransitivity; eassumption.
Qed.
End ArraySortFacts.

(* ===================================================================== *)
(** * The rows of a visit                                                 *)
(* ===================================================================== *)

Lemma audio_comparefn_key a b :
  (audio_comparefn a b <? 0) = (ae_dateTime a <=? ae_dateTime b).
Proof.
  unfold audio_comparefn.
  destruct (ae_dateTime a >? ae_dateTime b) eqn:C; rewrite Z.gtb_ltb in C.
  - apply Z.ltb_lt in C. symmetry. apply Z.leb_gt. lia.
  - apply Z.ltb_ge in C. symmetry. apply Z.leb_le. lia.
Qed.

Lemma visit_comparefn_key a b :
  (visit_comparefn a b <? 0) = (- v_start a <=? - v_start b).
Proof.
  unfold visit_comparefn.
  destruct (v_start b >? v_start a) eqn:C; rewrite Z.gtb_ltb in C.
  - apply Z.ltb_lt in C. symmetry. apply Z.leb_gt. lia.
  - apply Z.ltb_ge in C. symmetry. apply Z.leb_le. lia.
Qed.

Lemma span_app {A : Type} (f : A -> bool) (l : list A) :
  l = fst (span f l) ++ snd (span f l).
Proof.
  induction l as [|x l IH]; simpl; [reflexivity|].
  destruct (f x); [|reflexivity].
  destruct (span f l) as [yes rest]. simpl in *. congruence.
Qed.

Lemma span_fst_all {A : Type} (f : A -> bool) (l : list A) :
  Forall (fun x => f x = true) (fst (span f l)).
Proof.
  induction l as [|x l IH]; simpl; [constructor|].
  destruct (f x) eqn:E; [|constructor].
  destruct (span f l) as [yes rest]. simpl in *. constructor; assumption.
Qed.

Lemma span_snd_head {A : Type} (f : A -> bool) (l : list A) x rest :
  snd (span f l) = x :: rest -> f x = false.
Proof.
  induction l as [|y l IH]; simpl; [discriminate|].
  destruct (f y) eqn:E.
  - destruct (span f l) as [yes rest']. simpl in *. exact IH.
  - simpl. intros [= -> _]. exact E.
Qed.

(** In a stack that descends in time, nothing past the prefix played after
    [start] is played after [start]. *)
Lemma span_snd_not_after start stack :
  StronglySorted (fun a b => ae_dateTime a >= ae_dateTime b) stack ->
  Forall (fun a => ae_dateTime a <= start)
         (snd (span (played_after start) stack)).
Proof.
  intros S.
  pose proof (span_app (played_after start) stack) as E.
  rewrite E in S. apply StronglySorted_app_inv in S as (_ & S & _).
  destruct (snd (span (played_after start) stack)) as [|x rest] eqn:R;
    [constructor|].
  apply span_snd_head in R. unfold played_after in R.
  rewrite Z.gtb_ltb in R. apply Z.ltb_ge in R.
  apply StronglySorted_inv in S as [_ F].
  constructor; [exact R|].
  eapply Forall_impl; [|exact F]. simpl. intros; lia.
Qed.

Lemma pop_pending {A : Type} (a : list A) next rest :
  JS.pop a = (next, rest) ->
  match next with Some x => x :: rev rest | None => [] end = rev a /\
  (next = None -> rest = []).
Proof.
  unfold JS.pop. destruct (rev a) as [|x r] eqn:E; intros [= <- <-].
  - split; reflexivity.
  - rewrite rev_involutive. split; [reflexivity | discriminate].
Qed.

Lemma fold_left_addAudioBaitRow visit l out :
  fold_left (fun out audioEvent => addAudioBaitRow out visit audioEvent) l out
  = out ++ map audioBaitRow l.
Proof.
  revert out. induction l as [|a l IH]; intros out; simpl.
  - rewrite app_nil_r. reflexivity.
  - rewrite IH. unfold addAudioBaitRow, JS.push.
    rewrite <- app_assoc. reflexivity.
Qed.

(** The inner loop always ends, and shows exactly the pending events that
    were played after [start]. *)
Lemma bait_while_spec visit start fuel :
  forall c,
    cursor_ok c ->
    (List.length (pending c) <= fuel)%nat ->
    exists c',
      bait_while fuel visit start c = Some c' /\
      cursor_ok c' /\
      c_out c' =
        c_out c ++
        map audioBaitRow (fst (span (played_after start) (pending c))) /\
      pending c' = snd (span (played_after start) (pending c)).
Proof.
  induction fuel as [|fuel IH]; intros [out held arr time] [Ht Hn] Hl;
    simpl in Ht, Hn; subst time; unfold pending in *; simpl in *.
  - destruct held as [a|]; simpl in *; [lia|].
    eexists. split; [reflexivity|]. simpl.
    repeat split; auto. rewrite app_nil_r. reflexivity.
  - destruct held as [a|]; simpl in *.
    + change (ae_dateTime a >? start) with (played_after start a).
      destruct (played_after start a) eqn:C.
      * destruct (JS.pop arr) as [next rest] eqn:P.
        destruct (pop_pending _ _ _ P) as [Hp Hnone].
        destruct (IH {| c_out := addAudioBaitRow out visit a;
                        c_audioEvent := next;
                        c_audioEvents := rest;
                        c_audioTime := option_map ae_dateTime next |})
          as (c' & E & Ok & Ho & Hq).
        { split; [reflexivity | exact Hnone]. }
        { unfold pending. simpl. rewrite Hp, length_rev in *. lia. }
        exists c'. split; [exact E|]. split; [exact Ok|].
        unfold pending in Ho, Hq. simpl in Ho, Hq. rewrite Hp in Ho, Hq.
        destruct (span (played_after start) (rev arr)) as [yes no].
        simpl in *. split; [|exact Hq].
        rewrite Ho. unfold addAudioBaitRow, JS.push.
        rewrite <- app_assoc. reflexivity.
      * eexists. split; [reflexivity|]. simpl.
        repeat split; auto. rewrite app_nil_r. reflexivity.
    + eexists. split; [reflexivity|]. simpl.
      repeat split; auto. rewrite app_nil_r. reflexivity.
Qed.

Lemma pending_length c :
  (List.length (pending c) <= S (List.length (c_audioEvents c)))%nat.
Proof.
  unfold pending. destruct (c_audioEvent c); simpl; [|lia].
  rewrite length_rev. lia.
Qed.

(** The loop over the events always ends, and with what is still pending
    it has shown the merge of the events with the pending audio events. *)
Lemma events_loop_spec visit events :
  forall c,
    cursor_ok c ->
    exists c',
      events_loop visit events c = Some c' /\
      cursor_ok c' /\
      c_out c' ++ map audioBaitRow (pending c') =
        c_out c ++ merge_rows events (pending c).
Proof.
  induction events as [|event events IH]; intros c Ok;
    cbn [events_loop merge_rows].
  - exists c. repeat split; auto; apply Ok.
  - destruct (bait_while_spec visit (ve_start event) _ c Ok
                              (pending_length c))
      as (c1 & E1 & Ok1 & Ho1 & Hq1).
    rewrite E1.
    destruct (IH {| c_out := addEventRow (c_out c1) visit event;
                    c_audioEvent := c_audioEvent c1;
                    c_audioEvents := c_audioEvents c1;
                    c_audioTime := c_audioTime c1 |})
      as (c' & E & Ok' & Ho).
    { exact Ok1. }
    exists c'. split; [exact E|]. split; [exact Ok'|].
    rewrite Ho. unfold pending at 1. simpl. fold (pending c1).
    rewrite Hq1, Ho1.
    destruct (span (played_after (ve_start event)) (pending c))
      as [before rest].
    simpl. unfold addEventRow, JS.push.
    rewrite <- !app_assoc. reflexivity.
Qed.

(** The rows of a visit: the visit row, then the merge of its events with
    its audio events from the latest to the earliest. *)
Lemma visit_rows_spec out visit :
  visit_rows out visit = Some (out ++ visit_block visit).
Proof.
  unfold visit_rows, visit_block.
  destruct (JS.pop (JS.sort audio_comparefn (v_audioBaitEvents visit)))
    as [held arr] eqn:P.
  destruct (pop_pending _ _ _ P) as [Hp Hnone].
  destruct (events_loop_spec visit (v_events visit)
              {| c_out := addVisitRow out visit;
                 c_audioEvent := held;
                 c_audioEvents := arr;
                 c_audioTime := option_map ae_dateTime held |})
    as (c' & E & [_ Hn'] & Ho).
  { split; [reflexivity | exact Hnone]. }
  rewrite E, fold_left_addAudioBaitRow. f_equal.
  unfold pending at 2 in Ho. simpl in Ho. rewrite Hp in Ho.
  unfold addVisitRow, JS.push in Ho. rewrite <- app_assoc in Ho. simpl in Ho.
  rewrite <- Ho. f_equal. f_equal.
  unfold pending, JS.reverse, JS.push.
  destruct (c_audioEvent c') as [a|].
  - rewrite rev_app_distr. reflexivity.
  - rewrite (Hn' eq_refl). reflexivity.
Qed.

Lemma visits_loop_spec visits :
  forall out,
    visits_loop visits out = Some (out ++ flat_map visit_block visits).
Proof.
  induction visits as [|visit visits IH]; intros out; simpl.
  - rewrite app_nil_r. reflexivity.
  - rewrite visit_rows_spec, IH, <- app_assoc. reflexivity.
Qed.

Lemma bait_events_app l1 l2 :
  bait_events (l1 ++ l2) = bait_events l1 ++ bait_events l2.
Proof.
  induction l1 as [|r l1 IH]; simpl; [reflexivity|].
  destruct r; simpl; congruence.
Qed.

Lemma bait_events_audioBaitRows l : bait_events (map audioBaitRow l) = l.
Proof. induction l as [|a l IH]; simpl; congruence. Qed.

Lemma row_times_app l1 l2 : row_times (l1 ++ l2) = row_times l1 ++ row_times l2.
Proof.
  induction l1 as [|r l1 IH]; simpl; [reflexivity|].
  destruct (row_time r); simpl; congruence.
Qed.

Lemma row_times_audioBaitRows l :
  row_times (map audioBaitRow l) = map ae_dateTime l.
Proof. induction l as [|a l IH]; simpl; congruence. Qed.

(** The audio-bait rows of a merge show the stack, in its order. *)
Lemma bait_events_merge_rows events :
  forall stack, bait_events (merge_rows events stack) = stack.
Proof.
  induction events as [|event events IH]; intros stack; simpl.
  - apply bait_events_audioBaitRows.
  - pose proof (span_app (played_after (ve_start event)) stack) as E.
    destruct (span (played_after (ve_start event)) stack) as [before rest].
    simpl in E.
    rewrite bait_events_app, bait_events_audioBaitRows. simpl.
    rewrite IH. symmetry. exact E.
Qed.

Lemma bait_rows_merge_rows events :
  forall stack,
    filter is_bait_row (merge_rows events stack) = map audioBaitRow stack.
Proof.
  assert (F : forall l, filter is_bait_row (map audioBaitRow l)
                        = map audioBaitRow l).
  { induction l as [|a l IH]; simpl; congruence. }
  induction events as [|event events IH]; intros stack; simpl.
  - apply F.
  - pose proof (span_app (played_after (ve_start event)) stack) as E.
    destruct (span (played_after (ve_start event)) stack) as [before rest].
    simpl in E.
    rewrite filter_app, F. simpl. rewrite IH, <- map_app. congruence.
Qed.

Lemma merge_rows_timed events :
  forall stack,
    Forall (fun r => is_timed_row r = true) (merge_rows events stack).
Proof.
  induction events as [|event events IH]; intros stack; simpl.
  - apply Forall_map, Forall_forall. reflexivity.
  - destruct (span (played_after (ve_start event)) stack) as [before rest].
    apply Forall_app. split.
    + apply Forall_map, Forall_forall. reflexivity.
    + constructor; [reflexivity | apply IH].
Qed.

Lemma row_times_merge_in events :
  forall stack t,
    In t (row_times (merge_rows events stack)) ->
    In t (map ve_start events) \/ In t (map ae_dateTime stack).
Proof.
  induction events as [|event events IH]; intros stack t; simpl.
  - rewrite row_times_audioBaitRows. auto.
  - pose proof (span_app (played_after (ve_start event)) stack) as E.
    destruct (span (played_after (ve_start event)) stack) as [before rest].
    simpl in E. subst stack.
    rewrite row_times_app, row_times_audioBaitRows. simpl.
    rewrite map_app, !in_app_iff. simpl.
    intros [Hb | [He | Hm]]; auto.
    destruct (IH _ _ Hm); auto.
Qed.

(** The merge descends in time when the events and the stack do. *)
Lemma merge_rows_sorted events :
  forall stack,
    StronglySorted (fun a b => ve_start a >= ve_start b) events ->
    StronglySorted (fun a b => ae_dateTime a >= ae_dateTime b) stack ->
    StronglySorted Z.ge (row_times (merge_rows events stack)).
Proof.
  induction events as [|event events IH]; intros stack Se Ss; simpl.
  - rewrite row_times_audioBaitRows. apply StronglySorted_map_iff. exact Ss.
  - pose proof (span_app (played_after (ve_start event)) stack) as E.
    pose proof (span_fst_all (played_after (ve_start event)) stack) as Ha.
    pose proof (span_snd_not_after (ve_start event) stack Ss) as Hr.
    destruct (span (played_after (ve_start event)) stack) as [before rest].
    simpl in E, Ha, Hr. subst stack.
    apply StronglySorted_app_inv in Ss as (Sb & Sr & _).
    apply StronglySorted_inv in Se as [Se Fe].
    rewrite row_times_app, row_times_audioBaitRows. simpl.
    assert (Below : forall t, In t (row_times (merge_rows events rest)) ->
                              t <= ve_start event).
    { intros t Ht. apply row_times_merge_in in Ht as [Ht|Ht];
        apply in_map_iff in Ht as (x & <- & Hx).
      - rewrite Forall_forall in Fe. specialize (Fe x Hx). lia.
      - rewrite Forall_forall in Hr. apply Hr, Hx. }
    apply StronglySorted_app_intro.
    + apply StronglySorted_map_iff. exact Sb.
    + constructor; [apply IH; assumption|].
      apply Forall_forall. intros t Ht. specialize (Below t Ht). lia.
    + intros x y Hx Hy. apply in_map_iff in Hx as (a & <- & Hin).
      rewrite Forall_forall in Ha. specialize (Ha a Hin).
      unfold played_after in Ha. rewrite Z.gtb_ltb in Ha.
      apply Z.ltb_lt in Ha.
      destruct Hy as [<- | Hy]; [lia|]. specialize (Below y Hy). lia.
Qed.

Lemma app_cons_split {A : Type} (l1 : list A) :
  forall x l2 pre y post,
    l1 ++ x :: l2 = pre ++ y :: post ->
    ~ In y l1 ->
    (pre = l1 /\ x = y /\ l2 = post) \/
    (exists pre', pre = l1 ++ x :: pre' /\ l2 = pre' ++ y :: post).
Proof.
  induction l1 as [|a l1 IH]; intros x l2 pre y post E N; simpl in *.
  - destruct pre as [|p pre]; simpl in E; inversion E; subst.
    + left. auto.
    + right. exists pre. auto.
  - destruct pre as [|p pre]; simpl in E; inversion E; subst.
    + exfalso. apply N. auto.
    + destruct (IH _ _ _ _ _ H1) as [(-> & -> & ->) | (pre' & -> & ->)].
      * intros Hy. apply N. auto.
      * left. auto.
      * right. exists pre'. auto.
Qed.

(** Before the row of an event come the rows of all the audio events of
    the stack that were played after the start of the event. *)
Lemma merge_rows_before events :
  forall stack,
    StronglySorted (fun a b => ae_dateTime a >= ae_dateTime b) stack ->
    forall before event after audioBait,
      merge_rows events stack = before ++ RowEvent event :: after ->
      In audioBait stack ->
      ae_dateTime audioBait > ve_start event ->
      In (audioBaitRow audioBait) before.
Proof.
  induction events as [|e0 events IH];
    intros stack Ss pre event post b E Hb Ht; simpl in E.
  - exfalso.
    assert (Hin : In (RowEvent event) (map audioBaitRow stack))
      by (rewrite E; apply in_elt).
    apply in_map_iff in Hin as (x & Hx & _). discriminate.
  - pose proof (span_app (played_after (ve_start e0)) stack) as Ea.
    pose proof (span_snd_not_after (ve_start e0) stack Ss) as Hr.
    destruct (span (played_after (ve_start e0)) stack) as [bef rest].
    simpl in Ea, Hr. subst stack.
    apply StronglySorted_app_inv in Ss as (_ & Sr & _).
    apply in_app_iff in Hb.
    apply app_cons_split in E as [(-> & Ee & _) | (pre' & -> & E)].
    + inversion Ee; subst e0. destruct Hb as [Hb|Hb].
      * apply in_map, Hb.
      * rewrite Forall_forall in Hr. specialize (Hr b Hb). lia.
    + apply in_app_iff. destruct Hb as [Hb|Hb].
      * left. apply in_map, Hb.
      * right. right. eapply IH; eassumption.
    + intros Hin. apply in_map_iff in Hin as (x & Hx & _). discriminate.
Qed.

(** The audio events of a visit, from the latest to the earliest. *)
Lemma audio_stack_sorted l :
  StronglySorted (fun a b => ae_dateTime a >= ae_dateTime b)
                 (rev (JS.sort audio_comparefn l)).
Proof.
  destruct (sort_spec audio_comparefn ae_dateTime audio_comparefn_key l)
    as [S _].
  apply StronglySorted_rev_flip in S.
  eapply StronglySorted_impl; [|exact S]. simpl. intros; lia.
Qed.

Lemma audio_stack_perm l :
  Permutation (rev (JS.sort audio_comparefn l)) l.
Proof.
  destruct (sort_spec audio_comparefn ae_dateTime audio_comparefn_key l)
    as [_ P].
  symmetry. etransitivity; [exact P | apply Permutation_rev].
Qed.

(* ===================================================================== *)
(** * The fetch loop                                                      *)
(* ===================================================================== *)

Section LoopFacts.
Context {DS : Type} `{DeviceSummaryOps DS}.
Variable source : Source.
Variable filterData : Recording -> Recording.
Variable getMultiple : list FileId -> list File.
Variable request : RecordingQuery.

Local Abbreviation Body := (body source filterData request).
Local Abbreviation Loop := (loop source filterData request).
Local Abbreviation StateAt := (state_at source filterData request).
Local Abbreviation Initial := (initial request).
Local Abbreviation Fetch := (fetch source).

Lemma num_ge_array_true {A : Type} (n : Z) (a : list A) :
  JS.num_ge_array n a = true <-> a = [] /\ 0 <= n.
Proof.
  unfold JS.num_ge_array. destruct a; simpl.
  - rewrite Z.geb_le. intuition.
  - split; [discriminate | intros [? _]; discriminate].
Qed.

(** The flag the body leaves: it compares the rows fetched and the
    offset with the array of rows itself. *)
Lemma body_gotAllRecordings s :
  gotAllRecordings (outcome_state (Body s)) =
  Some (JS.num_ge_array
          (Z.of_nat (List.length (snd (Fetch s))) + query_offset s)
          (snd (Fetch s))).
Proof.
  unfold body. destruct (Fetch s) as [[call count] rows].
  simpl. destruct (Z.of_nat (List.length rows) =? 0); reflexivity.
Qed.

Lemma body_continue s s' :
  Body s = Continue s' ->
  snd (Fetch s) <> [] /\
  gotAllRecordings s' = Some false /\
  remainingVisits s' =
    requestVisits request - completeVisitsCount (devSummary s') /\
  query_limit s' = Z.min (remainingVisits s' * 2) queryMax /\
  query_offset s' = query_offset s + Z.of_nat (List.length (snd (Fetch s))) /\
  fetches s' = S (fetches s).
Proof.
  unfold body. destruct (Fetch s) as [[call count] rows].
  simpl. destruct (Z.of_nat (List.length rows) =? 0) eqn:E;
    [discriminate|].
  intros [= <-]. simpl.
  assert (N : rows <> []).
  { intros ->. simpl in E. discriminate. }
  repeat split; try reflexivity; [exact N|].
  destruct rows; [congruence | reflexivity].
Qed.

(** The first call the body makes is its fetch. *)
Lemma body_calls s :
  exists more,
    calls (outcome_state (Body s)) = calls s ++ fst (fst (Fetch s)) :: more
    /\ Forall (fun c => is_fetch c = false) more
    /\ Forall (fun c => is_finalization c = false)
              (fst (fst (Fetch s)) :: more).
Proof.
  assert (Hf : is_finalization (fst (fst (Fetch s))) = false).
  { unfold fetch. destruct (JS.truthy_num (totalCount s));
      reflexivity. }
  unfold body. destruct (Fetch s) as [[call count] rows].
  simpl in *. destruct (Z.of_nat (List.length rows) =? 0).
  - exists []. simpl. repeat split; repeat constructor. exact Hf.
  - eexists. simpl. split; [reflexivity|].
    destruct (negb _); simpl; split; repeat constructor; exact Hf.
Qed.

Lemma fetch_is_fetch (s : LoopState DS) :
  is_fetch (fst (fst (Fetch s))) = true /\
  fetch_limit (fst (fst (Fetch s))) = Some (query_limit s).
Proof.
  unfold fetch. destruct (JS.truthy_num (totalCount s));
    split; reflexivity.
Qed.

Lemma state_at_step n s' :
  StateAt (S n) = Some s' ->
  exists s, StateAt n = Some s /\ loop_test s = true /\
            Body s = Continue s'.
Proof.
  simpl. destruct (StateAt n) as [s|]; [|discriminate].
  destruct (loop_test s) eqn:T; [|discriminate].
  destruct (Body s) as [s1|s1] eqn:B; [|discriminate].
  intros [= <-]. exists s. auto.
Qed.

(** The loop test reads the flag as it stands: a state with the flag set
    passes it. *)
Lemma loop_test_with_flag_set (s : LoopState DS) :
  gotAllRecordings s = Some true -> loop_test s = true.
Proof. intros G. unfold loop_test. rewrite G. reflexivity. Qed.

(** The flag is never set when the loop test is evaluated. *)
Lemma state_at_flag n s :
  StateAt n = Some s -> JS.truthy_bool (gotAllRecordings s) = false.
Proof.
  destruct n as [|n].
  - intros [= <-]. reflexivity.
  - intros E. apply state_at_step in E as (s0 & _ & _ & B).
    apply body_continue in B as (_ & -> & _). reflexivity.
Qed.

Lemma state_at_offset n :
  forall s, StateAt n = Some s ->
            JS.or_zero (q_offset request) <= query_offset s.
Proof.
  induction n as [|n IH]; intros s E.
  - inversion E. simpl. lia.
  - apply state_at_step in E as (s0 & E0 & _ & B).
    apply body_continue in B as (_ & _ & _ & _ & -> & _).
    specialize (IH _ E0). lia.
Qed.

(** The loop started afresh goes through the states of [state_at]. *)
Lemma loop_state_at n :
  forall s fuel, StateAt n = Some s ->
                 Loop (n + fuel) Initial = Loop fuel s.
Proof.
  induction n as [|n IH]; intros s fuel E.
  - inversion E. reflexivity.
  - apply state_at_step in E as (s0 & E0 & T & B).
    replace (S n + fuel)%nat with (n + S fuel)%nat by lia.
    rewrite (IH _ _ E0). simpl. rewrite T, B. reflexivity.
Qed.

(** A property that the initial state has and the body keeps holds
    when the loop ends. *)
Lemma loop_invariant (P : LoopState DS -> Prop) :
  (forall s, P s -> P (outcome_state (Body s))) ->
  forall fuel s s', P s -> Loop fuel s = Some s' -> P s'.
Proof.
  intros Hb. induction fuel as [|fuel IH]; intros s s' Hs; simpl.
  - destruct (loop_test s); [discriminate | intros [= <-]; exact Hs].
  - destruct (loop_test s); [|intros [= <-]; exact Hs].
    pose proof (Hb s Hs) as Hs'.
    destruct (Body s) as [s1|s1]; simpl in Hs'.
    + apply IH, Hs'.
    + intros [= <-]. exact Hs'.
Qed.

Lemma loop_no_finalization fuel s' :
  Loop fuel Initial = Some s' ->
  Forall (fun c => is_finalization c = false) (calls s').
Proof.
  apply (loop_invariant
           (fun s => Forall (fun c => is_finalization c = false) (calls s)));
    [|constructor].
  intros s Hs. destruct (body_calls s) as (more & -> & _ & F).
  apply Forall_app. split; assumption.
Qed.

(** When the loop ends, the flag is set or no visit is wanted any more;
    the flag is then set only by the [break] on an empty page. *)
Lemma loop_end fuel s' :
  0 <= JS.or_zero (q_offset request) ->
  Loop fuel Initial = Some s' ->
  gotAllRecordings s' = Some true \/ remainingVisits s' <= 0.
Proof.
  intros Hoff.
  assert (G : forall fuel s,
             0 <= query_offset s ->
             JS.truthy_bool (gotAllRecordings s) = false ->
             Loop fuel s = Some s' ->
             gotAllRecordings s' = Some true \/ remainingVisits s' <= 0).
  { clear fuel. induction fuel as [|fuel IH]; intros s Ho Hg; simpl;
      unfold loop_test; rewrite Hg; simpl;
      destruct (remainingVisits s >? 0) eqn:R;
      try discriminate;
      try (intros [= <-]; right; rewrite Z.gtb_ltb in R;
           apply Z.ltb_ge in R; exact R).
    destruct (Body s) as [s1|s1] eqn:B.
    - pose proof (body_continue _ _ B) as (_ & G1 & _ & _ & O1 & _).
      apply IH; [lia | rewrite G1; reflexivity].
    - intros [= <-]. left.
      pose proof (body_gotAllRecordings s) as G1. rewrite B in G1.
      simpl in G1. rewrite G1. f_equal.
      assert (E : snd (Fetch s) = []).
      { destruct (snd (Fetch s)) as [|r rows] eqn:F; [reflexivity|].
        exfalso. revert B. unfold body.
        destruct (Fetch s) as [[call count] rows']. simpl in F. subst.
        simpl. discriminate. }
      rewrite E. apply num_ge_array_true. simpl. split; [reflexivity|lia]. }
  apply G; [simpl; lia | reflexivity].
Qed.
Lemma body_break_state s :
  snd (Fetch s) = [] ->
  Body s =
  Break {| totalCount := snd (fst (Fetch s));
           recordings := [];
           gotAllRecordings := Some (query_offset s >=? 0);
           numRecordings := numRecordings s + 0;
           remainingVisits := remainingVisits s;
           query_offset := query_offset s;
           query_limit := query_limit s;
           devSummary := devSummary s;
           fetches := S (fetches s);
           calls := calls s ++ [fst (fst (Fetch s))] |}.
Proof.
  unfold body. destruct (Fetch s) as [[call count] rows].
  simpl. intros ->. reflexivity.
Qed.

Lemma finish_visits s :
  exists names,
    r_visits (finish getMultiple s) =
    map (set_fileNames names)
        (JS.sort visit_comparefn
                 (completeVisits (r_summary (finish getMultiple s)))).
Proof. eexists. reflexivity. Qed.

Local Abbreviation Boundary := (boundary source filterData request).

Lemma state_at_fetches n :
  forall s, StateAt n = Some s -> fetches s = n.
Proof.
  induction n as [|n IH]; intros s E.
  - inversion E. reflexivity.
  - apply state_at_step in E as (s0 & E0 & _ & B).
    apply body_continue in B as (_ & _ & _ & _ & _ & ->).
    rewrite (IH _ E0). reflexivity.
Qed.

(** The fetch of the [n]-th iteration, as the call made on the source. *)
Lemma fetch_applies_source n s :
  StateAt n = Some s ->
  Fetch s =
  if JS.truthy_num (totalCount s)
  then (CallFindAll (query_offset s) (query_limit s),
        totalCount s,
        findAll source n (query_offset s) (query_limit s))
  else (CallFindAndCountAll (query_offset s) (query_limit s),
        Some (fst (findAndCountAll source n (query_offset s)
                                   (query_limit s))),
        snd (findAndCountAll source n (query_offset s) (query_limit s))).
Proof.
  intros E. unfold fetch. rewrite (state_at_fetches _ _ E).
  destruct (JS.truthy_num (totalCount s)); reflexivity.
Qed.

Lemma body_break_empty s s' :
  Body s = Break s' -> snd (Fetch s) = [].
Proof.
  unfold body. destruct (Fetch s) as [[call count] rows]. simpl.
  destruct rows as [|r rows]; [reflexivity|]. simpl. discriminate.
Qed.

(** A run of the body makes one fetch. *)
Lemma body_fetches_calls s :
  filter is_fetch (calls (outcome_state (Body s)))
  = filter is_fetch (calls s) ++ [fst (fst (Fetch s))].
Proof.
  destruct (body_calls s) as (more & -> & F & _).
  rewrite filter_app. simpl.
  destruct (fetch_is_fetch s) as [-> _]. f_equal. f_equal.
  induction F as [|c more Hc _ IH]; simpl; [reflexivity|].
  rewrite Hc. exact IH.
Qed.

Lemma state_at_fetch_calls n :
  forall s, StateAt n = Some s ->
            List.length (filter is_fetch (calls s)) = n.
Proof.
  induction n as [|n IH]; intros s E.
  - inversion E. reflexivity.
  - apply state_at_step in E as (s0 & E0 & _ & B).
    pose proof (body_fetches_calls s0) as C. rewrite B in C. simpl in C.
    rewrite C, length_app, (IH _ E0). simpl. lia.
Qed.

(** A boundary is a state in which the loop test is evaluated, or the
    state a [break] leaves. *)
Lemma boundary_cases n s :
  Boundary n = Some s ->
  StateAt n = Some s \/
  exists k s0,
    n = S k /\ StateAt k = Some s0 /\ loop_test s0 = true /\
    Body s0 = Break s.
Proof.
  destruct n as [|n]; [intros E; left; exact E|].
  simpl. destruct (StateAt n) as [s0|] eqn:E0; [|discriminate].
  destruct (loop_test s0) eqn:T; [|discriminate].
  destruct (Body s0) as [s1|s1] eqn:B; simpl; intros [= <-].
  - left. reflexivity.
  - right. exists n, s0. auto.
Qed.

(** C2: at every iteration boundary (before the first run of the body
    and after each run, however it ended) the loop is over exactly when
    [gotAllRecordings] is true or [remainingVisits <= 0], for a request
    whose offset is not negative.  When one of them holds, the loop
    returns the state of the boundary, and the fetches made are those
    of the [n] runs so far; otherwise the test passes and the body runs
    once more, starting with a fetch.  The flag is true at a boundary
    exactly when the run before it fetched an empty page, which is when
    it leaves by the [break]. *)
Theorem loop_ends_on_flag_or_no_visits_left (n : nat) (s : LoopState DS) :
  0 <= JS.or_zero (q_offset request) ->
  boundary source filterData request n = Some s ->
  ((gotAllRecordings s = Some true \/ remainingVisits s <= 0) <->
   loop source filterData request n (initial request) = Some s) /\
  (gotAllRecordings s = Some true \/ remainingVisits s <= 0 ->
   (forall fuel, (n <= fuel)%nat ->
      loop source filterData request fuel (initial request) = Some s) /\
   List.length (filter is_fetch (calls s)) = n) /\
  (~ (gotAllRecordings s = Some true \/ remainingVisits s <= 0) ->
   state_at source filterData request n = Some s /\
   loop_test s = true /\
   boundary source filterData request (S n)
   = Some (outcome_state (body source filterData request s)) /\
   is_fetch (fst (fst (fetch source s))) = true /\
   (exists more,
      calls (outcome_state (body source filterData request s)) =
      calls s ++ fst (fst (fetch source s)) :: more) /\
   forall fuel,
     loop source filterData request (n + S fuel) (initial request) =
     match body source filterData request s with
     | Break s' => Some s'
     | Continue s' => loop source filterData request fuel s'
     end) /\
  (gotAllRecordings s = Some true <->
   exists k s0,
     n = S k /\
     state_at source filterData request k = Some s0 /\
     loop_test s0 = true /\
     snd (fetch source s0) = []).
Proof.
  intros Hoff E.
  destruct (boundary_cases _ _ E) as [A | (k & s0 & -> & A & T & B)].
  - pose proof (state_at_flag _ _ A) as G.
    assert (NG : gotAllRecordings s <> Some true).
    { intros C. rewrite C in G. discriminate. }
    assert (TT : loop_test s = false <-> remainingVisits s <= 0).
    { unfold loop_test. rewrite G. simpl.
      rewrite Z.gtb_ltb, Z.ltb_ge. reflexivity. }
    assert (L : forall fuel, Loop (n + fuel) Initial = Loop fuel s)
      by (intros fuel; apply loop_state_at, A).
    assert (L0 : Loop n Initial = Loop 0 s)
      by (rewrite <- L; f_equal; lia).
    split; [|split; [|split]].
    + rewrite L0. simpl. split.
      * intros [C|C]; [contradiction|]. apply TT in C.
        rewrite C. reflexivity.
      * intros C. right. apply TT.
        destruct (loop_test s); [discriminate | reflexivity].
    + intros [C|C]; [contradiction|]. apply TT in C. split.
      * intros fuel Hf. replace fuel with (n + (fuel - n))%nat by lia.
        rewrite L. destruct (fuel - n)%nat; simpl; rewrite C; reflexivity.
      * apply state_at_fetch_calls, A.
    + intros C.
      assert (T : loop_test s = true).
      { destruct (loop_test s) eqn:T; [reflexivity|].
        exfalso. apply C. right. apply TT. reflexivity. }
      split; [exact A|]. split; [exact T|]. split.
      { simpl. rewrite A, T. reflexivity. }
      split; [apply fetch_is_fetch|]. split.
      { destruct (body_calls s) as (more & Hc & _). exists more. exact Hc. }
      intros fuel. rewrite L. simpl. rewrite T. reflexivity.
    + split; [intros C; contradiction|].
      intros (k & s0 & -> & A0 & T0 & F0).
      apply state_at_step in A as (s1 & A1 & _ & B1).
      rewrite A0 in A1. injection A1 as <-.
      apply body_continue in B1 as (N & _). contradiction.
  - pose proof (body_break_empty _ _ B) as F.
    pose proof (body_gotAllRecordings s0) as G. rewrite B in G.
    simpl in G. rewrite F in G.
    assert (G1 : gotAllRecordings s = Some true).
    { rewrite G. f_equal. apply num_ge_array_true.
      split; [reflexivity|].
      pose proof (state_at_offset _ _ A). simpl. lia. }
    assert (L : forall fuel, Loop (S k + fuel) Initial = Some s).
    { intros fuel. replace (S k + fuel)%nat with (k + S fuel)%nat by lia.
      rewrite (loop_state_at _ _ _ A). simpl. rewrite T, B. reflexivity. }
    split; [|split; [|split]].
    + split; [intros _ | intros _; left; exact G1].
      rewrite <- (L 0%nat). f_equal. lia.
    + intros _. split.
      * intros fuel Hf.
        replace fuel with (S k + (fuel - S k))%nat by lia. apply L.
      * pose proof (body_fetches_calls s0) as C. rewrite B in C.
        simpl in C.
        rewrite C, length_app, (state_at_fetch_calls _ _ A). simpl. lia.
    + intros C. exfalso. apply C. left. exact G1.
    + split; [intros _ | intros _; exact G1].
      exists k, s0. auto.
Qed.

(** C3: the fetch of an iteration is made on the source with the query
    limit of the state at that point.  In every iteration after the
    first the source is asked for [min(remainingVisits * 2, queryMax)]
    rows, with
    [remainingVisits = requestVisits - completeVisitsCount()]; in the
    first iteration, when the request has a limit, it is asked (by
    [findAndCountAll], at the offset of the request) for
    [min(limit * 2, queryMax)] rows.  The rows and the count the
    iteration goes on with are the answer of the source to that call. *)
Theorem fetch_limit_follows_remaining_visits (n : nat) (s : LoopState DS) :
  state_at source filterData request n = Some s ->
  loop_test s = true ->
  fetch_limit (fst (fst (fetch source s))) = Some (query_limit s) /\
  ((0 < n)%nat ->
   remainingVisits s =
     requestVisits request - completeVisitsCount (devSummary s) /\
   query_limit s = Z.min (remainingVisits s * 2) queryMax) /\
  (n = 0%nat ->
   forall limit, q_limit request = Some limit ->
                 query_limit s = Z.min (limit * 2) queryMax) /\
  ((0 < n)%nat ->
   let limit := Z.min (remainingVisits s * 2) queryMax in
   fetch source s =
   if JS.truthy_num (totalCount s)
   then (CallFindAll (query_offset s) limit,
         totalCount s,
         findAll source n (query_offset s) limit)
   else (CallFindAndCountAll (query_offset s) limit,
         Some (fst (findAndCountAll source n (query_offset s) limit)),
         snd (findAndCountAll source n (query_offset s) limit))) /\
  (n = 0%nat ->
   forall limit,
     q_limit request = Some limit ->
     let offset := JS.or_zero (q_offset request) in
     let answer :=
       findAndCountAll source 0 offset (Z.min (limit * 2) queryMax) in
     fetch source s =
     (CallFindAndCountAll offset (Z.min (limit * 2) queryMax),
      Some (fst answer), snd answer)) /\
  recordings (outcome_state (body source filterData request s))
  = (if Z.of_nat (List.length (snd (fetch source s))) =? 0
     then snd (fetch source s)
     else map filterData (snd (fetch source s))) /\
  totalCount (outcome_state (body source filterData request s))
  = snd (fst (fetch source s)).
Proof.
  intros E T.
  assert (Later : (0 < n)%nat ->
                  remainingVisits s =
                    requestVisits request
                    - completeVisitsCount (devSummary s) /\
                  query_limit s = Z.min (remainingVisits s * 2) queryMax).
  { intros Hn. destruct n as [|n]; [lia|].
    apply state_at_step in E as (s0 & _ & _ & B).
    apply body_continue in B as (_ & _ & R & L & _). split; assumption. }
  assert (First : n = 0%nat ->
                  forall limit, q_limit request = Some limit ->
                                query_limit s = Z.min (limit * 2) queryMax).
  { intros -> limit Hl. inversion E; subst s. clear E.
    unfold loop_test in T. simpl in T.
    unfold requestVisits in T. rewrite Hl in T.
    rewrite Z.gtb_ltb in T. apply Z.ltb_lt in T.
    simpl. unfold queryLimit. rewrite Hl. simpl.
    destruct (limit =? 0) eqn:Z0; [apply Z.eqb_eq in Z0; lia|].
    reflexivity. }
  split; [apply fetch_is_fetch|]. split; [exact Later|].
  split; [exact First|]. split; [|split; [|split]].
  - intros Hn. destruct (Later Hn) as [_ L]. cbv zeta. rewrite <- L.
    apply fetch_applies_source, E.
  - intros -> limit Hl. cbv zeta. rewrite <- (First eq_refl _ Hl).
    rewrite (fetch_applies_source _ _ E).
    inversion E; subst s. reflexivity.
  - unfold body. destruct (Fetch s) as [[call count] rows]. simpl.
    destruct (Z.of_nat (List.length rows) =? 0); reflexivity.
  - unfold body. destruct (Fetch s) as [[call count] rows]. simpl.
    destruct (Z.of_nat (List.length rows) =? 0); reflexivity.
Qed.

(** C4: when a fetch returns no rows the loop is left at once.  The
    query returns, that fetch is the last one made, and the visits
    returned are those gathered so far: the complete visits of the
    summary as it was before the fetch, finalized. *)
Theorem empty_page_ends_the_query (n : nat) (s : LoopState DS) :
  state_at source filterData request n = Some s ->
  loop_test s = true ->
  snd (fetch source s) = [] ->
  0 <= JS.or_zero (q_offset request) ->
  exists r,
    (forall fuel, (n < fuel)%nat ->
       queryVisits source filterData getMultiple request fuel = Some r) /\
    filter is_fetch (r_calls r) =
      filter is_fetch (calls s) ++ [fst (fst (fetch source s))] /\
    r_summary r = markCompleted (devSummary s) /\
    (exists names,
       r_visits r =
       map (set_fileNames names)
           (JS.sort visit_comparefn
                    (completeVisits (markCompleted (devSummary s))))) /\
    r_hasMoreVisits r = false.
Proof.
  intros E T F Hoff.
  pose proof (body_break_state s F) as B.
  pose proof (state_at_offset _ _ E) as Ho.
  assert (G : (query_offset s >=? 0) = true) by (apply Z.geb_le; lia).
  rewrite G in B.
  match type of B with _ = Break ?x => set (s1 := x) in * end.
  exists (finish getMultiple s1). split; [|split; [|split; [|split]]].
  - intros fuel Hf. unfold queryVisits.
    replace fuel with (n + S (fuel - S n))%nat by lia.
    rewrite (loop_state_at _ _ _ E). simpl. rewrite T, B. reflexivity.
  - simpl. rewrite !filter_app. simpl.
    destruct (fetch_is_fetch s) as [-> _]. rewrite app_nil_r. reflexivity.
  - reflexivity.
  - eexists. reflexivity.
  - reflexivity.
Qed.

(** The visits returned come from the latest start to the earliest. *)
Lemma finish_visits_descend s :
  StronglySorted (fun a b => v_start a >= v_start b)
                 (r_visits (finish getMultiple s)).
Proof.
  destruct (finish_visits s) as (names & ->).
  destruct (sort_spec visit_comparefn (fun v => - v_start v)
                      visit_comparefn_key
                      (completeVisits (r_summary (finish getMultiple s))))
    as [S _].
  apply StronglySorted_map_iff.
  eapply StronglySorted_impl; [|exact S]. simpl. intros; lia.
Qed.

(** C6: the offset returned is [earliestIncompleteOffset()] of the
    summary; when that is null and visits are returned, it is the
    [queryOffset] of the last of them plus one, and the last of them is
    one that started earliest: no visit returned has an earlier
    start. *)
Theorem queryOffset_is_the_resumption_point
        (fuel : nat) (r : VisitsResult DS) :
  queryVisits source filterData getMultiple request fuel = Some r ->
  (forall offset,
     earliestIncompleteOffset (r_summary r) = Some offset ->
     r_queryOffset r = Some offset) /\
  (earliestIncompleteOffset (r_summary r) = None ->
   forall earlier oldest,
     r_visits r = earlier ++ [oldest] ->
     r_queryOffset r = Some (v_queryOffset oldest + 1) /\
     forall visit, In visit (r_visits r) ->
                   v_start oldest <= v_start visit) /\
  (earliestIncompleteOffset (r_summary r) = None ->
   r_visits r = [] ->
   r_queryOffset r = earliestIncompleteOffset (r_summary r)).
Proof.
  unfold queryVisits.
  destruct (loop source filterData request fuel (initial request))
    as [s|]; [|discriminate].
  intros [= <-].
  pose proof (finish_visits_descend s) as D.
  revert D. unfold finish. simpl.
  set (dev := if JS.truthy_bool (gotAllRecordings s)
              then markCompleted (devSummary s)
              else removeIncompleteVisits (devSummary s)).
  set (visits := JS.sort visit_comparefn (completeVisits dev)).
  intros D.
  split; [|split].
  - intros offset ->. reflexivity.
  - intros -> earlier oldest Hv. split.
    + apply (f_equal (@rev Visit)) in Hv.
      rewrite <- map_rev, rev_app_distr in Hv. simpl in Hv.
      destruct (rev visits) as [|v0 rest]; [discriminate|].
      simpl in Hv. inversion Hv. reflexivity.
    + rewrite Hv in D |- *.
      apply StronglySorted_app_inv in D as (_ & _ & D).
      intros visit Hin. apply in_app_or in Hin as [Hin|[<-|[]]]; [|lia].
      specialize (D visit oldest Hin (or_introl eq_refl)). lia.
  - intros -> Hv. apply map_eq_nil in Hv. rewrite Hv. reflexivity.
Qed.

(** C7, as the code has it: the visits returned are the complete visits
    of the summary, with the file names filled in, sorted by start time
    from the latest to the earliest. *)
Theorem visits_sorted_by_start_descending
        (fuel : nat) (r : VisitsResult DS) :
  queryVisits source filterData getMultiple request fuel = Some r ->
  StronglySorted (fun a b => v_start a >= v_start b) (r_visits r) /\
  exists names,
    Permutation (r_visits r)
      (map (set_fileNames names) (completeVisits (r_summary r))).
Proof.
  unfold queryVisits.
  destruct (loop source filterData request fuel (initial request))
    as [s|]; [|discriminate].
  intros [= <-]. destruct (finish_visits s) as (names & ->).
  destruct (sort_spec visit_comparefn (fun v => - v_start v)
                      visit_comparefn_key
                      (completeVisits (r_summary (finish getMultiple s))))
    as [S P].
  split.
  - apply StronglySorted_map_iff.
    eapply StronglySorted_impl; [|exact S]. simpl. intros; lia.
  - exists names. apply Permutation_map. symmetry. exact P.
Qed.

(** C8: after the loop exactly one finalization is made, before
    anything is read from the summary: [markCompleted()] when
    [gotAllRecordings] is true and [removeIncompleteVisits()] otherwise;
    and [hasMoreVisits] is the negation of [gotAllRecordings]. *)
Theorem finalization_follows_the_flag (fuel : nat) (r : VisitsResult DS) :
  queryVisits source filterData getMultiple request fuel = Some r ->
  exists s,
    loop source filterData request fuel (initial request) = Some s /\
    r_summary r =
      (if JS.truthy_bool (gotAllRecordings s)
       then markCompleted (devSummary s)
       else removeIncompleteVisits (devSummary s)) /\
    filter is_finalization (r_calls r) =
      [if JS.truthy_bool (gotAllRecordings s)
       then CallMarkCompleted else CallRemoveIncompleteVisits] /\
    r_calls r =
      calls s ++
      [if JS.truthy_bool (gotAllRecordings s)
       then CallMarkCompleted else CallRemoveIncompleteVisits;
       CallAllAudioFileIds; CallCompleteVisits;
       CallEarliestIncompleteOffset;
       CallGetMultiple (allAudioFileIds (r_summary r))] /\
    r_hasMoreVisits r = negb (JS.truthy_bool (gotAllRecordings s)).
Proof.
  unfold queryVisits.
  destruct (loop source filterData request fuel (initial request))
    as [s|] eqn:L; [|discriminate].
  intros [= <-]. exists s. split; [reflexivity|].
  split; [reflexivity|]. split; [|split; reflexivity].
  simpl. rewrite filter_app.
  pose proof (loop_no_finalization _ _ L) as F.
  assert (N : filter is_finalization (calls s) = []).
  { clear -F. induction F as [|c l Hc F IH]; simpl; [reflexivity|].
    rewrite Hc. exact IH. }
  rewrite N. simpl.
  destruct (JS.truthy_bool (gotAllRecordings s)); reflexivity.
Qed.
End LoopFacts.

(* ===================================================================== *)
(** * The report                                                          *)
(* ===================================================================== *)

Lemma merge_rows_in events :
  forall stack r,
    In r (merge_rows events stack) ->
    (exists event, r = RowEvent event /\ In event events) \/
    (exists audioBait, r = audioBaitRow audioBait /\ In audioBait stack).
Proof.
  induction events as [|event events IH]; intros stack r; simpl.
  - intros Hr. apply in_map_iff in Hr as (b & <- & Hb). right. eauto.
  - pose proof (span_app (played_after (ve_start event)) stack) as E.
    destruct (span (played_after (ve_start event)) stack) as [before rest].
    simpl in E. subst stack.
    rewrite in_app_iff. simpl. intros [Hr | [<- | Hr]].
    + apply in_map_iff in Hr as (b & <- & Hb). right. exists b.
      split; [reflexivity | apply in_app_iff; auto].
    + left. eauto.
    + destruct (IH _ _ Hr) as [(e & -> & He) | (b & -> & Hb)].
      * left. eauto.
      * right. exists b. split; [reflexivity | apply in_app_iff; auto].
Qed.

(** A file id that no file of the lookup carries has no name. *)
Lemma get_name_unresolved files id :
  (forall f, In f files -> f_id f <> id) ->
  forall m, get_name (fold_left set_name files m) id = get_name m id.
Proof.
  induction files as [|f files IH]; intros N m; simpl; [reflexivity|].
  rewrite IH by (intros g Hg; apply N; simpl; auto).
  simpl. destruct (f_id f =? id) eqn:E; [|reflexivity].
  apply Z.eqb_eq in E. exfalso. apply (N f); simpl; auto.
Qed.

(** C5: the rows that follow the visit row are event rows and audio-bait
    rows only.  When the events of the visit are stored from the latest to
    the earliest, the times of these rows never increase; and before the
    row of an event come the rows of all audio events of the visit played
    after the start of the event.  A visit with events at 10 and 0 and a
    bait at 5 gives event(10), bait(5), event(0). *)
Theorem report_rows_descend_in_time (out : list Row) (visit : Visit) :
  exists rows,
    visit_rows out visit = Some (out ++ RowVisit visit :: rows) /\
    Forall (fun r => is_timed_row r = true) rows /\
    (StronglySorted (fun a b => ve_start a >= ve_start b) (v_events visit) ->
     StronglySorted Z.ge (row_times rows)) /\
    (forall before event after audioBait,
       rows = before ++ RowEvent event :: after ->
       In audioBait (v_audioBaitEvents visit) ->
       ae_dateTime audioBait > ve_start event ->
       In (audioBaitRow audioBait) before) /\
    visit_rows [] Model.scenario_visit =
    Some [RowVisit Model.scenario_visit;
          RowEvent (Model.event_at 10);
          audioBaitRow (Model.bait 1 5 42 None);
          RowEvent (Model.event_at 0)].
Proof.
  eexists. split; [apply visit_rows_spec|].
  split; [apply merge_rows_timed|]. split; [|split].
  - intros Se. apply merge_rows_sorted; [exact Se | apply audio_stack_sorted].
  - intros before event after audioBait E Hin Ht.
    eapply merge_rows_before; [apply audio_stack_sorted | exact E | | exact Ht].
    eapply Permutation_in; [symmetry; apply audio_stack_perm | exact Hin].
  - reflexivity.
Qed.

(** C10: the loop over the visits adds one block of rows per visit: the
    visit row and then rows among which the audio-bait rows are the rows
    of the audio events of the visit, each event once. *)
Theorem each_bait_event_has_one_row (visits : list Visit) (out : list Row) :
  exists blocks,
    visits_loop visits out = Some (out ++ concat blocks) /\
    Forall2
      (fun visit block =>
         exists rows,
           block = RowVisit visit :: rows /\
           Permutation (bait_events rows) (v_audioBaitEvents visit) /\
           filter is_bait_row rows = map audioBaitRow (bait_events rows))
      visits blocks.
Proof.
  exists (map visit_block visits). split.
  - rewrite visits_loop_spec, flat_map_concat_map. reflexivity.
  - induction visits as [|visit visits IH]; simpl; constructor; [|exact IH].
    eexists. split; [reflexivity|].
    rewrite bait_events_merge_rows, bait_rows_merge_rows.
    split; [apply audio_stack_perm | reflexivity].
Qed.

Section ReportFacts.
Context {DS : Type} `{DeviceSummaryOps DS}.
Variable source : Source.
Variable filterData : Recording -> Recording.
Variable getMultiple : list FileId -> list File.
Variable reportDeviceVisits : DS -> list (list string).
Variable request : RecordingQuery.

(** The report: the device rows, an empty row, the header, and the
    blocks of the visits. *)
Lemma reportVisits_rows fuel results :
  queryVisits source filterData getMultiple request fuel = Some results ->
  reportVisits source filterData getMultiple reportDeviceVisits request fuel
  = Some (map RowCells (reportDeviceVisits (r_summary results))
            ++ [RowCells []; RowCells visits_header]
            ++ flat_map visit_block (r_visits results)).
Proof.
  intros E. unfold reportVisits. rewrite E, visits_loop_spec.
  unfold JS.push. rewrite <- !app_assoc. reflexivity.
Qed.

(** An audio-bait row of the report shows an audio event of a returned
    visit: its name cell is the file name of the event, which is the name
    the bulk lookup has for the file id of the event. *)
Lemma report_bait_row fuel results rows audioBait what audioPlayed :
  queryVisits source filterData getMultiple request fuel = Some results ->
  reportVisits source filterData getMultiple reportDeviceVisits request fuel
  = Some rows ->
  In (RowAudioBait audioBait what audioPlayed) rows ->
  what = ae_fileName audioBait /\
  audioPlayed = audioPlayed_cell audioBait /\
  ae_fileName audioBait =
    get_name
      (fold_left set_name
                 (getMultiple (allAudioFileIds (r_summary results))) [])
      (ae_fileId audioBait).
Proof.
  intros E R Hin. rewrite (reportVisits_rows _ _ E) in R.
  injection R as <-.
  unfold queryVisits in E.
  destruct (loop source filterData request fuel (initial request))
    as [s|]; [|discriminate].
  injection E as <-.
  apply in_app_or in Hin as [Hin | Hin].
  { apply in_map_iff in Hin as (c & Hc & _). discriminate. }
  simpl in Hin. destruct Hin as [Hc | [Hc | Hin]]; try discriminate.
  apply in_flat_map in Hin as (v & Hv & Hin).
  destruct Hin as [Hc | Hin]; [discriminate|].
  apply merge_rows_in in Hin as [(e & He & _) | (b & Hb & Hin)];
    [discriminate|].
  apply (Permutation_in _ (audio_stack_perm _)) in Hin.
  simpl in Hv. apply in_map_iff in Hv as (v0 & <- & _).
  simpl in Hin. apply in_map_iff in Hin as (b0 & <- & _).
  unfold audioBaitRow in Hb. injection Hb as -> -> ->.
  repeat split; reflexivity.
Qed.

(** With no name for the file, the [Audio Played] cell is [undefined], or
    the text [undefined vol N] when the event has a volume. *)
Lemma unresolved_file_audio_played fuel results rows audioBait what played :
  queryVisits source filterData getMultiple request fuel = Some results ->
  reportVisits source filterData getMultiple reportDeviceVisits request fuel
  = Some rows ->
  In (RowAudioBait audioBait what played) rows ->
  (forall f,
     In f (getMultiple (allAudioFileIds (r_summary results))) ->
     f_id f <> ae_fileId audioBait) ->
  played =
    if JS.truthy_num (ae_volume audioBait)
    then JS.CString
           ("undefined vol " ++
            JS.num_to_string (JS.or_zero (ae_volume audioBait)))
    else JS.CUndefined.
Proof.
  intros E R Hin Hno.
  destruct (report_bait_row _ _ _ _ _ _ E R Hin) as (_ & -> & Hn).
  rewrite get_name_unresolved in Hn by exact Hno. simpl in Hn.
  unfold audioPlayed_cell. rewrite Hn. reflexivity.
Qed.

(** C9, as the code has it: the report succeeds whenever the query does,
    and an audio-bait row whose file id no file of the bulk lookup
    carries has [undefined] for its name. *)
Theorem unresolved_file_leaves_name_undefined
        (fuel : nat) (results : VisitsResult DS) :
  queryVisits source filterData getMultiple request fuel = Some results ->
  exists rows,
    reportVisits source filterData getMultiple reportDeviceVisits request
                 fuel = Some rows /\
    forall audioBait what audioPlayed,
      In (RowAudioBait audioBait what audioPlayed) rows ->
      (forall f,
         In f (getMultiple (allAudioFileIds (r_summary results))) ->
         f_id f <> ae_fileId audioBait) ->
      what = JS.CUndefined.
Proof.
  intros E. eexists. split; [apply (reportVisits_rows _ _ E)|].
  intros audioBait what audioPlayed Hin Hno.
  destruct (report_bait_row _ _ _ _ _ _ E (reportVisits_rows _ _ E) Hin)
    as (-> & _ & ->).
  apply get_name_unresolved. exact Hno.
Qed.
End ReportFacts.

(* ===================================================================== *)
(** * Runs of the query and of the report                                 *)
(* ===================================================================== *)

Import Model.

(** C1: the flag is not computed from the total count.  A source that
    holds three recordings and reports a count of 3 returns all three on
    the first fetch, at offset 0: 3 + 0 reaches the count, and the flag is
    false.  A source that reports a count of 100 and returns no rows at
    offset 3 leaves the flag true, although 0 + 3 is below the count. *)
Theorem gotAllRecordings_compares_with_the_rows :
  (exists s : LoopState Summary,
     state_at (paged_source 3 three_recordings) no_filter query_all 1
     = Some s /\
     totalCount s = Some 3 /\
     List.length (recordings s) = 3%nat /\
     fetches s = 1%nat /\
     gotAllRecordings s = Some false) /\
  (exists s : LoopState Summary,
     loop (paged_source 100 three_recordings) no_filter query_all 2
          (initial query_all) = Some s /\
     totalCount s = Some 100 /\
     recordings s = [] /\
     query_offset s = 3 /\
     gotAllRecordings s = Some true).
Proof.
  split; eexists; (split; [vm_compute; reflexivity|]);
    repeat split; reflexivity.
Qed.

(** C7 as stated fails: two devices with one recording each, taken at the
    same time, are fetched as visits 0 and 1 and returned as 1 and 0. *)
Lemma equal_starts_lose_fetch_order :
  exists r,
    run_query (paged_source 2 two_devices) [] query_all 2 = Some r /\
    map visitID (completeVisits (r_summary r)) = [0; 1] /\
    map v_start (completeVisits (r_summary r)) = [1000000; 1000000] /\
    map visitID (r_visits r) = [1; 0] /\
    ~ keeps_fetch_order (completeVisits (r_summary r)) (r_visits r).
Proof.
  eexists. split; [vm_compute; reflexivity|].
  repeat split; try reflexivity.
  intros K. specialize (K 1000000). vm_compute in K. discriminate.
Qed.

(** C9 as stated fails: with no file found for the bait of the recording,
    the name cell of its row is [undefined] and not the empty string. *)
Lemma unresolved_name_is_not_blank :
  exists rows audioBait what audioPlayed,
    run_report (paged_source 1 baited) [] query_all 2 = Some rows /\
    In (RowAudioBait audioBait what audioPlayed) rows /\
    lookup_in [] [ae_fileId audioBait] = [] /\
    what = JS.CUndefined /\
    what <> JS.CString "".
Proof.
  do 4 eexists. split; [vm_compute; reflexivity|].
  split; [do 4 right; left; reflexivity|].
  repeat split; try reflexivity. discriminate.
Qed.

(** Three boundaries.  After the second run of a query without a limit
    the flag is set, by the empty page at offset 3, while visits are
    still wanted: the loop is over after two fetches.  After the first
    run of a request for one visit the flag is not set and no visit is
    wanted any more: the loop is over after one fetch.  After the first
    run of the query without a limit neither holds, and the body runs
    again. *)
Lemma loop_ends_on_flag_or_no_visits_left_witness :
  (exists s : LoopState Summary,
     boundary (paged_source 3 three_recordings) no_filter query_all 2
     = Some s /\
     gotAllRecordings s = Some true /\
     remainingVisits s = 4998 /\
     (forall fuel, (2 <= fuel)%nat ->
        loop (paged_source 3 three_recordings) no_filter query_all fuel
             (initial query_all) = Some s) /\
     List.length (filter is_fetch (calls s)) = 2%nat) /\
  (exists s : LoopState Summary,
     boundary (paged_source 3 three_recordings) no_filter (query_first 1) 1
     = Some s /\
     gotAllRecordings s = Some false /\
     remainingVisits s = 0 /\
     (forall fuel, (1 <= fuel)%nat ->
        loop (paged_source 3 three_recordings) no_filter (query_first 1)
             fuel (initial (query_first 1)) = Some s) /\
     List.length (filter is_fetch (calls s)) = 1%nat) /\
  (exists s : LoopState Summary,
     boundary (paged_source 3 three_recordings) no_filter query_all 1
     = Some s /\
     gotAllRecordings s = Some false /\
     remainingVisits s = 4998 /\
     loop_test s = true /\
     is_fetch (fst (fst (fetch (paged_source 3 three_recordings) s)))
     = true).
Proof.
  split; [|split].
  - assert (E : exists s : LoopState Summary,
               boundary (paged_source 3 three_recordings) no_filter
                        query_all 2 = Some s)
      by (eexists; reflexivity).
    destruct E as (s & E). exists s. split; [exact E|].
    destruct (loop_ends_on_flag_or_no_visits_left
                (DS := Summary) (H := summary_ops)
                (paged_source 3 three_recordings) no_filter query_all
                2%nat s) as (_ & Stop & _ & _);
      [vm_compute; discriminate | exact E |].
    vm_compute in E. injection E as <-.
    split; [reflexivity|]. split; [reflexivity|].
    apply Stop. left. reflexivity.
  - assert (E : exists s : LoopState Summary,
               boundary (paged_source 3 three_recordings) no_filter
                        (query_first 1) 1 = Some s)
      by (eexists; reflexivity).
    destruct E as (s & E). exists s. split; [exact E|].
    destruct (loop_ends_on_flag_or_no_visits_left
                (DS := Summary) (H := summary_ops)
                (paged_source 3 three_recordings) no_filter (query_first 1)
                1%nat s) as (_ & Stop & _ & _);
      [vm_compute; discriminate | exact E |].
    vm_compute in E. injection E as <-.
    split; [reflexivity|]. split; [reflexivity|].
    apply Stop. right. vm_compute. discriminate.
  - assert (E : exists s : LoopState Summary,
               boundary (paged_source 3 three_recordings) no_filter
                        query_all 1 = Some s)
      by (eexists; reflexivity).
    destruct E as (s & E). exists s. split; [exact E|].
    destruct (loop_ends_on_flag_or_no_visits_left
                (DS := Summary) (H := summary_ops)
                (paged_source 3 three_recordings) no_filter query_all
                1%nat s) as (_ & _ & Go & _);
      [vm_compute; discriminate | exact E |].
    vm_compute in E. injection E as <-.
    split; [reflexivity|]. split; [reflexivity|].
    destruct Go as (_ & T & _ & F & _); [|split; [exact T | exact F]].
    intros [C|C]; [discriminate C | vm_compute in C; apply C; reflexivity].
Defined.

(** The second fetch of a query without a limit, after two of three visits
    are complete, asks the source for [min((5000 - 2) * 2, 10000)] rows at
    offset 3; the first fetch of a request for one visit asks it for
    [min(1 * 2, 10000)] rows and gets the first two of the three
    recordings. *)
Lemma fetch_limit_follows_remaining_visits_witness :
  (exists s : LoopState Summary,
     state_at (paged_source 3 three_recordings) no_filter query_all 1
     = Some s /\
     loop_test s = true /\
     completeVisitsCount (devSummary s) = 2 /\
     fetch_limit (fst (fst (fetch (paged_source 3 three_recordings) s)))
     = Some (query_limit s) /\
     query_limit s = Z.min (remainingVisits s * 2) queryMax /\
     query_limit s = 9996 /\
     fetch (paged_source 3 three_recordings) s
     = (CallFindAll 3 9996, Some 3,
        findAll (paged_source 3 three_recordings) 1 3 9996)) /\
  (exists s : LoopState Summary,
     state_at (paged_source 3 three_recordings) no_filter (query_first 1) 0
     = Some s /\
     loop_test s = true /\
     query_limit s = Z.min (1 * 2) queryMax /\
     fetch (paged_source 3 three_recordings) s
     = (CallFindAndCountAll 0 2, Some 3, firstn 2 three_recordings)).
Proof.
  split.
  - assert (E : exists s : LoopState Summary,
               state_at (paged_source 3 three_recordings) no_filter
                        query_all 1 = Some s)
      by (eexists; reflexivity).
    destruct E as (s & E). exists s. split; [exact E|].
    destruct (fetch_limit_follows_remaining_visits
                (DS := Summary) (H := summary_ops)
                (paged_source 3 three_recordings) no_filter query_all
                1%nat s E) as (L & A & _ & F & _).
    { vm_compute in E. injection E as <-. reflexivity. }
    specialize (A ltac:(lia)). specialize (F ltac:(lia)).
    vm_compute in E. injection E as <-.
    split; [reflexivity|]. split; [reflexivity|].
    split; [exact L|]. split; [apply A|]. split; [reflexivity|].
    exact F.
  - assert (E : exists s : LoopState Summary,
               state_at (paged_source 3 three_recordings) no_filter
                        (query_first 1) 0 = Some s)
      by (eexists; reflexivity).
    destruct E as (s & E). exists s. split; [exact E|].
    destruct (fetch_limit_follows_remaining_visits
                (DS := Summary) (H := summary_ops)
                (paged_source 3 three_recordings) no_filter (query_first 1)
                0%nat s E) as (_ & _ & Q & _ & F & _).
    { vm_compute in E. injection E as <-. reflexivity. }
    specialize (Q eq_refl 1 eq_refl). specialize (F eq_refl 1 eq_refl).
    vm_compute in E. injection E as <-.
    split; [reflexivity|]. split; [exact Q | exact F].
Defined.

(** A source that reports 100 recordings and holds three: the second
    fetch, at offset 3, returns no rows and ends the query. *)
Lemma empty_page_ends_the_query_witness :
  exists (s : LoopState Summary) (r : VisitsResult Summary),
    state_at (paged_source 100 three_recordings) no_filter query_all 1
    = Some s /\
    loop_test s = true /\
    snd (fetch (paged_source 100 three_recordings) s) = [] /\
    totalCount s = Some 100 /\
    (forall fuel, (1 < fuel)%nat ->
       run_query (paged_source 100 three_recordings) [] query_all fuel
       = Some r) /\
    r_hasMoreVisits r = false /\
    map visitID (r_visits r) = [0; 1; 2].
Proof.
  eexists.
  destruct (empty_page_ends_the_query (DS := Summary) (H := summary_ops)
              (paged_source 100 three_recordings) no_filter (lookup_in [])
              query_all 1 _ eq_refl eq_refl eq_refl)
    as (r & Hq & _ & _ & (names & Hv) & Hm).
  { vm_compute. discriminate. }
  exists r. split; [vm_compute; reflexivity|].
  split; [reflexivity|]. split; [reflexivity|]. split; [reflexivity|].
  split; [exact Hq|]. split; [exact Hm|].
  rewrite Hv, map_map. reflexivity.
Defined.

(** The visit of the scenario: its events are stored from the latest to
    the earliest, and the times of its rows are 10, 5 and 0. *)
Lemma report_rows_descend_in_time_witness :
  StronglySorted (fun a b => ve_start a >= ve_start b)
                 (v_events scenario_visit) /\
  exists rows,
    visit_rows [] scenario_visit = Some (RowVisit scenario_visit :: rows) /\
    row_times rows = [10; 5; 0] /\
    StronglySorted Z.ge (row_times rows).
Proof.
  assert (S : StronglySorted (fun a b => ve_start a >= ve_start b)
                             (v_events scenario_visit)).
  { repeat constructor. simpl. lia. }
  split; [exact S|].
  destruct (report_rows_descend_in_time [] scenario_visit)
    as (rows & E & _ & D & _).
  exists rows. split; [exact E|]. split; [|exact (D S)].
  vm_compute in E. injection E as <-. reflexivity.
Defined.

(** A request for one visit: the first of three visits is returned, the
    others are given up, and the next query starts at offset 1.  A query
    without a limit that reaches the end: no visit is incomplete, the
    three visits are returned, and the offset is one past that of the
    last of them, the one that started earliest. *)
Lemma queryOffset_is_the_resumption_point_witness :
  (exists r,
     run_query (paged_source 3 three_recordings) [] (query_first 1) 2
     = Some r /\
     earliestIncompleteOffset (r_summary r) = Some 1 /\
     r_queryOffset r = Some 1) /\
  (exists r earlier oldest,
     run_query (paged_source 3 three_recordings) [] query_all 2 = Some r /\
     earliestIncompleteOffset (r_summary r) = None /\
     r_visits r = earlier ++ [oldest] /\
     map v_start (r_visits r) = [3000000; 2000000; 1000000] /\
     v_start oldest = 1000000 /\
     v_queryOffset oldest = 2 /\
     r_queryOffset r = Some (v_queryOffset oldest + 1) /\
     forall visit, In visit (r_visits r) ->
                   v_start oldest <= v_start visit).
Proof.
  split.
  - eexists. split; [vm_compute; reflexivity|].
    split; [reflexivity|].
    destruct (queryOffset_is_the_resumption_point
                (DS := Summary) (H := summary_ops)
                (paged_source 3 three_recordings) no_filter (lookup_in [])
                (query_first 1) 2 _ eq_refl) as (Q & _).
    apply Q. reflexivity.
  - assert (E : exists r,
               run_query (paged_source 3 three_recordings) [] query_all 2
               = Some r)
      by (eexists; reflexivity).
    destruct E as (r & E).
    destruct (queryOffset_is_the_resumption_point
                (DS := Summary) (H := summary_ops)
                (paged_source 3 three_recordings) no_filter (lookup_in [])
                query_all 2 r E) as (_ & Q & _).
    vm_compute in E. injection E as <-.
    eexists. eexists [_; _]. eexists.
    split; [vm_compute; reflexivity|]. split; [reflexivity|].
    split; [reflexivity|]. split; [reflexivity|].
    split; [reflexivity|]. split; [reflexivity|].
    apply (Q eq_refl [_; _] _ eq_refl).
Defined.

Lemma visits_sorted_by_start_descending_witness :
  exists r,
    run_query (paged_source 3 three_recordings) [] query_all 2 = Some r /\
    map v_start (r_visits r) = [3000000; 2000000; 1000000] /\
    StronglySorted (fun a b => v_start a >= v_start b) (r_visits r).
Proof.
  eexists. split; [vm_compute; reflexivity|].
  split; [reflexivity|].
  destruct (visits_sorted_by_start_descending (DS := Summary) (H := summary_ops)
              (paged_source 3 three_recordings) no_filter (lookup_in [])
              query_all 2 _ eq_refl) as (S & _).
  exact S.
Defined.

Lemma finalization_follows_the_flag_witness :
  exists r,
    run_query (paged_source 3 three_recordings) [] (query_first 1) 2
    = Some r /\
    filter is_finalization (r_calls r) = [CallRemoveIncompleteVisits] /\
    r_hasMoreVisits r = true /\
    exists s,
      loop (paged_source 3 three_recordings) no_filter (query_first 1) 2
           (initial (query_first 1)) = Some s /\
      r_hasMoreVisits r = negb (JS.truthy_bool (gotAllRecordings s)).
Proof.
  eexists. split; [vm_compute; reflexivity|].
  split; [reflexivity|]. split; [reflexivity|].
  destruct (finalization_follows_the_flag (DS := Summary) (H := summary_ops)
              (paged_source 3 three_recordings) no_filter (lookup_in [])
              (query_first 1) 2 _ eq_refl) as (s & L & _ & _ & _ & M).
  exists s. split; [exact L | exact M].
Defined.

(** The report on a recording whose bait names file 42, which the lookup
    does not find. *)
Lemma unresolved_file_leaves_name_undefined_witness :
  exists results rows,
    run_query (paged_source 1 baited) [] query_all 2 = Some results /\
    run_report (paged_source 1 baited) [] query_all 2 = Some rows /\
    forall what audioPlayed,
      In (RowAudioBait (bait 1 999000 42 (Some 5)) what audioPlayed) rows ->
      what = JS.CUndefined.
Proof.
  eexists.
  destruct (unresolved_file_leaves_name_undefined
              (DS := Summary) (H := summary_ops)
              (paged_source 1 baited) no_filter (lookup_in [])
              no_device_rows query_all 2 _ eq_refl) as (rows & E & U).
  exists rows. split; [reflexivity|]. split; [exact E|].
  intros what audioPlayed Hin.
  apply (U _ _ _ Hin). intros f [].
Defined.

(* ===================================================================== *)
(** * Tags with legacy field names: what the moves do                     *)
(* ===================================================================== *)

Lemma obj_get_set_same o k v : Obj.get (Obj.set o k v) k = v.
Proof.
  induction o as [|[k' v'] o IH]; simpl.
  - rewrite String.eqb_refl. reflexivity.
  - destruct (String.eqb k' k) eqn:E; simpl.
    + rewrite String.eqb_refl. reflexivity.
    + rewrite E. exact IH.
Qed.

Lemma obj_get_set_other o k v k' :
  k <> k' -> Obj.get (Obj.set o k v) k' = Obj.get o k'.
Proof.
  intros N. induction o as [|[k0 v0] o IH]; simpl.
  - apply String.eqb_neq in N. rewrite N. reflexivity.
  - destruct (String.eqb k0 k) eqn:E; simpl.
    + apply String.eqb_eq in E. subst k0.
      apply String.eqb_neq in N. rewrite N. reflexivity.
    + rewrite IH. reflexivity.
Qed.

Lemma obj_get_delete_same o k : Obj.get (Obj.delete o k) k = Obj.VUndefined.
Proof.
  induction o as [|[k0 v0] o IH]; simpl; [reflexivity|].
  destruct (String.eqb k0 k) eqn:E; simpl; [exact IH|].
  rewrite E. exact IH.
Qed.

Lemma obj_get_delete_other o k k' :
  k <> k' -> Obj.get (Obj.delete o k) k' = Obj.get o k'.
Proof.
  intros N. induction o as [|[k0 v0] o IH]; simpl; [reflexivity|].
  destruct (String.eqb k0 k) eqn:E; simpl.
  - apply String.eqb_eq in E. subst k0.
    apply String.eqb_neq in N. rewrite N. exact IH.
  - rewrite IH. reflexivity.
Qed.

Lemma obj_has_delete_same o k : Obj.has (Obj.delete o k) k = false.
Proof.
  induction o as [|[k0 v0] o IH]; simpl; [reflexivity|].
  destruct (String.eqb k0 k) eqn:E; simpl; [exact IH|].
  rewrite E. exact IH.
Qed.

(** The value of a field after a move that did not throw. *)
Lemma moveLegacyField_get o oldName newName k :
  oldName <> newName ->
  thrown (moveLegacyField o oldName newName) = None ->
  Obj.get (after (moveLegacyField o oldName newName)) k =
  if Obj.truthy (Obj.get o oldName) then
    if String.eqb k newName then Obj.get o oldName
    else if String.eqb k oldName then Obj.VUndefined
    else Obj.get o k
  else Obj.get o k.
Proof.
  intros N. unfold moveLegacyField.
  destruct (Obj.truthy (Obj.get o oldName)); [|reflexivity].
  destruct (Obj.truthy (Obj.get o newName)); [discriminate|].
  intros _. simpl.
  destruct (String.eqb k newName) eqn:En.
  - apply String.eqb_eq in En. subst k.
    rewrite obj_get_delete_other by exact N. apply obj_get_set_same.
  - apply String.eqb_neq in En.
    destruct (String.eqb k oldName) eqn:Eo.
    + apply String.eqb_eq in Eo. subst k. apply obj_get_delete_same.
    + apply String.eqb_neq in Eo.
      rewrite obj_get_delete_other by congruence.
      apply obj_get_set_other. congruence.
Qed.

Lemma moveLegacyField_thrown o oldName newName :
  thrown (moveLegacyField o oldName newName) =
  if Obj.truthy (Obj.get o oldName) && Obj.truthy (Obj.get o newName)
  then Some (both_fields_message oldName newName)
  else None.
Proof.
  unfold moveLegacyField.
  destruct (Obj.truthy (Obj.get o oldName));
    destruct (Obj.truthy (Obj.get o newName)); reflexivity.
Qed.

(** [moveLegacyField] throws exactly when the old and the new field are
    both truthy, and then says so; when it throws, and when the old field
    is falsy, the object is left as it was. *)
Theorem moveLegacyField_throws_on_both (o : Obj.t) (oldName newName : string) :
  (thrown (moveLegacyField o oldName newName) <> None <->
   Obj.truthy (Obj.get o oldName) = true /\
   Obj.truthy (Obj.get o newName) = true) /\
  (thrown (moveLegacyField o oldName newName) <> None ->
   thrown (moveLegacyField o oldName newName)
   = Some (both_fields_message oldName newName) /\
   after (moveLegacyField o oldName newName) = o) /\
  (Obj.truthy (Obj.get o oldName) = false ->
   moveLegacyField o oldName newName = {| after := o; thrown := None |}).
Proof.
  unfold moveLegacyField.
  destruct (Obj.truthy (Obj.get o oldName));
    destruct (Obj.truthy (Obj.get o newName)); simpl;
    repeat split; try congruence; try discriminate; intuition congruence.
Qed.

(** X1: A truthy old field whose new field is falsy is moved: the new field
    takes its value, the old field is no field of the object any more,
    and every other field reads as before. *)
Theorem moveLegacyField_moves (o : Obj.t) (oldName newName : string) :
  oldName <> newName ->
  Obj.truthy (Obj.get o oldName) = true ->
  Obj.truthy (Obj.get o newName) = false ->
  let moved := moveLegacyField o oldName newName in
  thrown moved = None /\
  Obj.get (after moved) newName = Obj.get o oldName /\
  Obj.has (after moved) oldName = false /\
  forall k, k <> oldName -> k <> newName ->
            Obj.get (after moved) k = Obj.get o k.
Proof.
  intros N To Tn. simpl.
  assert (Th : thrown (moveLegacyField o oldName newName) = None).
  { rewrite moveLegacyField_thrown, To, Tn. reflexivity. }
  split; [exact Th|]. split; [|split].
  - rewrite moveLegacyField_get by assumption.
    rewrite To, String.eqb_refl. reflexivity.
  - unfold moveLegacyField. rewrite To, Tn. simpl.
    apply obj_has_delete_same.
  - intros k Ko Kn. rewrite moveLegacyField_get by assumption.
    rewrite To. apply String.eqb_neq in Ko, Kn. rewrite Ko, Kn.
    reflexivity.
Qed.

Lemma handleLegacyTagFieldsForCreate_thrown tag :
  thrown (handleLegacyTagFieldsForCreate tag) =
  if Obj.truthy (Obj.get tag "animal") && Obj.truthy (Obj.get tag "what")
  then Some (both_fields_message "animal" "what")
  else if Obj.truthy (Obj.get tag "event")
          && Obj.truthy (Obj.get tag "detail")
  then Some (both_fields_message "event" "detail")
  else None.
Proof.
  unfold handleLegacyTagFieldsForCreate.
  pose proof (moveLegacyField_thrown tag "animal" "what") as T1.
  destruct (thrown (moveLegacyField tag "animal" "what")) as [m|] eqn:E1.
  - rewrite E1.
    destruct (Obj.truthy (Obj.get tag "animal")
              && Obj.truthy (Obj.get tag "what")); congruence.
  - destruct (Obj.truthy (Obj.get tag "animal")
              && Obj.truthy (Obj.get tag "what")); [discriminate|].
    rewrite moveLegacyField_thrown.
    rewrite !moveLegacyField_get by (discriminate || assumption).
    simpl. destruct (Obj.truthy (Obj.get tag "animal")); reflexivity.
Qed.

Lemma handleLegacyTagFieldsForCreate_get tag k :
  thrown (handleLegacyTagFieldsForCreate tag) = None ->
  Obj.get (after (handleLegacyTagFieldsForCreate tag)) k =
  if String.eqb k "what" then
    if Obj.truthy (Obj.get tag "animal") then Obj.get tag "animal"
    else Obj.get tag "what"
  else if String.eqb k "detail" then
    if Obj.truthy (Obj.get tag "event") then Obj.get tag "event"
    else Obj.get tag "detail"
  else if String.eqb k "animal" then
    if Obj.truthy (Obj.get tag "animal") then Obj.VUndefined
    else Obj.get tag "animal"
  else if String.eqb k "event" then
    if Obj.truthy (Obj.get tag "event") then Obj.VUndefined
    else Obj.get tag "event"
  else Obj.get tag k.
Proof.
  unfold handleLegacyTagFieldsForCreate.
  destruct (thrown (moveLegacyField tag "animal" "what")) as [m|] eqn:E1;
    [rewrite E1; discriminate|].
  intros E2.
  rewrite moveLegacyField_get by (discriminate || assumption).
  rewrite !moveLegacyField_get by (discriminate || assumption).
  simpl.
  destruct (String.eqb k "what") eqn:Kw.
  - apply String.eqb_eq in Kw. subst k. simpl.
    destruct (Obj.truthy (Obj.get tag "animal"));
      destruct (Obj.truthy (Obj.get tag "event")); reflexivity.
  - destruct (String.eqb k "detail") eqn:Kd.
    + apply String.eqb_eq in Kd. subst k. simpl.
      destruct (Obj.truthy (Obj.get tag "animal"));
        destruct (Obj.truthy (Obj.get tag "event")); reflexivity.
    + destruct (String.eqb k "animal") eqn:Ka.
      * apply String.eqb_eq in Ka. subst k. simpl.
        destruct (Obj.truthy (Obj.get tag "animal"));
          destruct (Obj.truthy (Obj.get tag "event")); reflexivity.
      * destruct (String.eqb k "event") eqn:Ke.
        -- apply String.eqb_eq in Ke. subst k. simpl.
           destruct (Obj.truthy (Obj.get tag "animal"));
             destruct (Obj.truthy (Obj.get tag "event")); reflexivity.
        -- destruct (Obj.truthy (Obj.get tag "animal"));
             destruct (Obj.truthy (Obj.get tag "event"));
             rewrite ?Kw, ?Kd, ?Ka, ?Ke; reflexivity.
Qed.

(** X2: [handleLegacyTagFieldsForCreate] succeeds exactly when neither
    [animal] and [what] nor [event] and [detail] are both truthy.  When it
    succeeds, [what] holds the truthy [animal] or else the old [what],
    [detail] the truthy [event] or else the old [detail], no truthy
    [animal] or [event] is left, and every other field reads as before. *)
Theorem handleLegacyTagFieldsForCreate_moves_both (tag : Obj.t) :
  let done := handleLegacyTagFieldsForCreate tag in
  (thrown done = None <->
   ~ (Obj.truthy (Obj.get tag "animal") = true /\
      Obj.truthy (Obj.get tag "what") = true) /\
   ~ (Obj.truthy (Obj.get tag "event") = true /\
      Obj.truthy (Obj.get tag "detail") = true)) /\
  (thrown done = None ->
   Obj.get (after done) "what" =
     (if Obj.truthy (Obj.get tag "animal") then Obj.get tag "animal"
      else Obj.get tag "what") /\
   Obj.get (after done) "detail" =
     (if Obj.truthy (Obj.get tag "event") then Obj.get tag "event"
      else Obj.get tag "detail") /\
   Obj.truthy (Obj.get (after done) "animal") = false /\
   Obj.truthy (Obj.get (after done) "event") = false /\
   forall k,
     k <> "animal"%string -> k <> "what"%string ->
     k <> "event"%string -> k <> "detail"%string ->
     Obj.get (after done) k = Obj.get tag k).
Proof.
  simpl. split.
  - rewrite handleLegacyTagFieldsForCreate_thrown.
    destruct (Obj.truthy (Obj.get tag "animal"));
      destruct (Obj.truthy (Obj.get tag "what"));
      destruct (Obj.truthy (Obj.get tag "event"));
      destruct (Obj.truthy (Obj.get tag "detail")); simpl;
      split; try discriminate; try reflexivity;
      try (intros [A B]; exfalso; (apply A || apply B); auto);
      intros; repeat split; intros [? ?]; discriminate.
  - intros E.
    split; [rewrite handleLegacyTagFieldsForCreate_get by exact E;
            reflexivity|].
    split; [rewrite handleLegacyTagFieldsForCreate_get by exact E;
            reflexivity|].
    split; [|split].
    + rewrite handleLegacyTagFieldsForCreate_get by exact E. simpl.
      destruct (Obj.truthy (Obj.get tag "animal")) eqn:A;
        [reflexivity | exact A].
    + rewrite handleLegacyTagFieldsForCreate_get by exact E. simpl.
      destruct (Obj.truthy (Obj.get tag "event")) eqn:A;
        [reflexivity | exact A].
    + intros k Ka Kw Ke Kd.
      rewrite handleLegacyTagFieldsForCreate_get by exact E.
      apply String.eqb_neq in Ka, Kw, Ke, Kd.
      rewrite Ka, Kw, Ke, Kd. reflexivity.
Qed.

(** X3: Handling the legacy fields of a tag a second time changes nothing. *)
Theorem handleLegacyTagFieldsForCreate_twice (tag : Obj.t) :
  thrown (handleLegacyTagFieldsForCreate tag) = None ->
  handleLegacyTagFieldsForCreate (after (handleLegacyTagFieldsForCreate tag))
  = {| after := after (handleLegacyTagFieldsForCreate tag);
       thrown := None |}.
Proof.
  intros E.
  pose proof (handleLegacyTagFieldsForCreate_get tag "animal" E) as A.
  pose proof (handleLegacyTagFieldsForCreate_get tag "event" E) as V.
  simpl in A, V.
  set (o := after (handleLegacyTagFieldsForCreate tag)) in *.
  assert (Ta : Obj.truthy (Obj.get o "animal") = false).
  { rewrite A. destruct (Obj.truthy (Obj.get tag "animal")) eqn:T;
      [reflexivity | exact T]. }
  assert (Tv : Obj.truthy (Obj.get o "event") = false).
  { rewrite V. destruct (Obj.truthy (Obj.get tag "event")) eqn:T;
      [reflexivity | exact T]. }
  unfold handleLegacyTagFieldsForCreate, moveLegacyField.
  rewrite Ta. simpl. rewrite Tv. reflexivity.
Qed.

(** X4: A tag that is rejected for having both [event] and [detail] has by
    then lost its [animal] field to [what]: the object of the caller is
    changed although the call throws. *)
Theorem handleLegacyTagFieldsForCreate_throws_half_done (tag : Obj.t) :
  Obj.truthy (Obj.get tag "animal") = true ->
  Obj.truthy (Obj.get tag "what") = false ->
  Obj.truthy (Obj.get tag "event") = true ->
  Obj.truthy (Obj.get tag "detail") = true ->
  let done := handleLegacyTagFieldsForCreate tag in
  thrown done = Some (both_fields_message "event" "detail") /\
  Obj.get (after done) "what" = Obj.get tag "animal" /\
  Obj.has (after done) "animal" = false /\
  after done <> tag.
Proof.
  intros Ta Tw Te Td. simpl.
  destruct (moveLegacyField_moves tag "animal" "what") as (M1 & M2 & M3 & M4);
    [discriminate | exact Ta | exact Tw |].
  assert (R : handleLegacyTagFieldsForCreate tag =
              {| after := after (moveLegacyField tag "animal" "what");
                 thrown := Some (both_fields_message "event" "detail") |}).
  { unfold handleLegacyTagFieldsForCreate. rewrite M1.
    unfold moveLegacyField at 1.
    rewrite !M4 by discriminate. rewrite Te, Td. reflexivity. }
  rewrite R. simpl. repeat split; try assumption.
  intros Eq. rewrite Eq in M2. rewrite <- M2 in Ta. congruence.
Qed.

(** X5: A tag created with the legacy names reads back with them: after the
    fields were moved for the creation, [handleLegacyTagFieldsForGet]
    gives [animal] the value of [what] and [event] the value of [detail],
    which are the legacy values the tag came with when those were truthy;
    no other field changes. *)
Theorem legacy_fields_read_back (tag : Obj.t) :
  thrown (handleLegacyTagFieldsForCreate tag) = None ->
  let stored := after (handleLegacyTagFieldsForCreate tag) in
  let back := handleLegacyTagFieldsForGet stored in
  Obj.get back "animal" = Obj.get stored "what" /\
  Obj.get back "event" = Obj.get stored "detail" /\
  (Obj.truthy (Obj.get tag "animal") = true ->
   Obj.get back "animal" = Obj.get tag "animal") /\
  (Obj.truthy (Obj.get tag "event") = true ->
   Obj.get back "event" = Obj.get tag "event") /\
  forall k, k <> "animal"%string -> k <> "event"%string ->
            Obj.get back k = Obj.get stored k.
Proof.
  intros E. simpl.
  set (stored := after (handleLegacyTagFieldsForCreate tag)).
  assert (Ga : Obj.get (handleLegacyTagFieldsForGet stored) "animal"
               = Obj.get stored "what").
  { unfold handleLegacyTagFieldsForGet.
    rewrite obj_get_set_other by discriminate. apply obj_get_set_same. }
  assert (Ge : Obj.get (handleLegacyTagFieldsForGet stored) "event"
               = Obj.get stored "detail").
  { unfold handleLegacyTagFieldsForGet.
    rewrite obj_get_set_same. apply obj_get_set_other. discriminate. }
  split; [exact Ga|]. split; [exact Ge|]. split; [|split].
  - intros T. rewrite Ga. unfold stored.
    rewrite handleLegacyTagFieldsForCreate_get by exact E.
    simpl. rewrite T. reflexivity.
  - intros T. rewrite Ge. unfold stored.
    rewrite handleLegacyTagFieldsForCreate_get by exact E.
    simpl. rewrite T. reflexivity.
  - intros k Ka Ke. unfold handleLegacyTagFieldsForGet.
    rewrite !obj_get_set_other by congruence. reflexivity.
Qed.

(* ===================================================================== *)
(** * Reprocessing recordings                                             *)
(* ===================================================================== *)

Section ReprocessFacts.
Variable recording_get : nat -> RecordingId -> bool.

Local Abbreviation found :=
  (fun p : nat * RecordingId => recording_get (fst p) (snd p)).
Local Abbreviation lost :=
  (fun p : nat * RecordingId => negb (recording_get (fst p) (snd p))).
Local Abbreviation numbered :=
  (fun (i : nat) (l : list RecordingId) =>
     combine (seq i (List.length l)) l).
Local Abbreviation no_such :=
  (fun id : RecordingId =>
     ("No such recording: " ++ JS.num_to_string id)%string).

Lemma status_lor_success (s f : bool) :
  Z.lor (Z.b2z s + 2 * Z.b2z f) statusCode_Success
  = Z.b2z true + 2 * Z.b2z f.
Proof. destruct s, f; reflexivity. Qed.

Lemma status_lor_fail (s f : bool) :
  Z.lor (Z.b2z s + 2 * Z.b2z f) statusCode_Fail
  = Z.b2z s + 2 * Z.b2z true.
Proof. destruct s, f; reflexivity. Qed.

(** What the loop adds to its variables. *)
Lemma reprocess_loop_spec recordings :
  forall i st s f,
    status st = Z.b2z s + 2 * Z.b2z f ->
    let ok := map snd (filter found (numbered i recordings)) in
    let ko := map snd (filter lost (numbered i recordings)) in
    let st' := reprocess_loop recording_get i recordings st in
    rp_reprocessed (responseMessage st')
      = rp_reprocessed (responseMessage st) ++ ok /\
    rp_fail (responseMessage st') = rp_fail (responseMessage st) ++ ko /\
    rp_messages (responseMessage st')
      = rp_messages (responseMessage st) ++ map no_such ko /\
    rp_statusCode (responseMessage st')
      = (match ko with
         | [] => rp_statusCode (responseMessage st)
         | _ :: _ => 400
         end) /\
    reprocess_calls st' = reprocess_calls st ++ ok /\
    status st'
      = Z.b2z (s || negb (Nat.eqb (List.length ok) 0))
        + 2 * Z.b2z (f || negb (Nat.eqb (List.length ko) 0)).
Proof.
  induction recordings as [|id rest IH]; intros i st s f Hs.
  - simpl. rewrite !app_nil_r, !orb_false_r. repeat split; auto.
  - cbv zeta.
    cbn [reprocess_loop List.length seq combine filter fst snd].
    specialize (IH (S i) (reprocess_step recording_get i st id)).
    unfold reprocess_step, reprocessRecording in *.
    destruct (recording_get i id) eqn:G; cbn [negb] in *.
    + specialize (IH true f).
      destruct IH as (A & B & C & D & E & F);
        [cbn; rewrite Hs; apply status_lor_success|].
      cbn [responseMessage rp_reprocessed rp_fail rp_messages
           rp_statusCode reprocess_calls status one_recordingId
           one_statusCode one_messages Z.eqb Pos.eqb negb] in *.
      rewrite A, B, C, D, E, F. unfold JS.push.
      rewrite <- !app_assoc. cbn [map snd app List.length Nat.eqb negb].
      rewrite orb_true_r. repeat split; reflexivity.
    + specialize (IH s true).
      destruct IH as (A & B & C & D & E & F);
        [cbn; rewrite Hs; apply status_lor_fail|].
      cbn [responseMessage rp_reprocessed rp_fail rp_messages
           rp_statusCode reprocess_calls status one_recordingId
           one_statusCode one_messages Z.eqb Pos.eqb negb hd] in *.
      rewrite A, B, C, D, E, F. unfold JS.push.
      rewrite <- !app_assoc.
      cbn [map snd app List.length Nat.eqb negb].
      rewrite orb_true_r. rewrite ?app_nil_r.
      repeat split; try reflexivity.
      match goal with
      | |- match ?l with _ => _ end = _ => destruct l; reflexivity
      end.
Qed.

Lemma filter_found_lost_perm (l : list (nat * RecordingId)) :
  Permutation l (filter found l ++ filter lost l).
Proof.
  induction l as [|p l IH]; simpl; [constructor|].
  destruct (recording_get (fst p) (snd p)); simpl.
  - constructor. exact IH.
  - apply Permutation_cons_app. exact IH.
Qed.

(** X6: [reprocessAll] sorts the recordings of the request into those it
    found and those it did not, each list in the order of the request and
    every recording in one of them; [reprocess] is called on the
    recordings found, once each and in that order, and on no other. *)
Theorem reprocessAll_sorts_the_recordings (recordings : list RecordingId) :
  let '(response, called) := reprocessAll recording_get recordings in
  rp_reprocessed response
    = map snd (filter found (numbered 0%nat recordings)) /\
  rp_fail response = map snd (filter lost (numbered 0%nat recordings)) /\
  Permutation recordings (rp_reprocessed response ++ rp_fail response) /\
  called = rp_reprocessed response.
Proof.
  unfold reprocessAll.
  match goal with
  | |- context [reprocess_loop _ _ _ ?st0] =>
    destruct (reprocess_loop_spec recordings 0%nat st0 false false eq_refl)
      as (A & B & _ & _ & E & _)
  end.
  cbn [rp_reprocessed rp_fail responseMessage reprocess_calls app] in *.
  rewrite A, B, E. repeat split; try reflexivity.
  rewrite <- map_app.
  replace recordings with (map snd (numbered 0%nat recordings)) at 1.
  - apply Permutation_map, filter_found_lost_perm.
  - clear. generalize 0%nat.
    induction recordings as [|id rest IH]; intros n; simpl;
      [reflexivity | rewrite IH; reflexivity].
Qed.

(** X7: The response of [reprocessAll]: the status code is 200 when no
    recording failed and 400 otherwise; the first message tells whether
    all, none or some of the recordings were scheduled and is empty for an
    empty request; one message follows for each recording that failed. *)
Theorem reprocessAll_reports_the_failures (recordings : list RecordingId) :
  let response := fst (reprocessAll recording_get recordings) in
  rp_statusCode response
    = (match rp_fail response with [] => 200 | _ :: _ => 400 end) /\
  rp_messages response
    = (match rp_reprocessed response, rp_fail response with
       | [], [] => ""
       | _ :: _, [] => "All recordings scheduled for reprocessing"
       | [], _ :: _ => "Recordings could not be scheduled for reprocessing"
       | _ :: _, _ :: _ =>
         "Some recordings could not be scheduled for reprocessing"
       end)%string
      :: map no_such (rp_fail response).
Proof.
  unfold reprocessAll.
  match goal with
  | |- context [reprocess_loop _ _ _ ?st0] =>
    destruct (reprocess_loop_spec recordings 0%nat st0 false false eq_refl)
      as (A & B & C & D & _ & F)
  end.
  cbn [fst rp_reprocessed rp_fail rp_messages rp_statusCode
       responseMessage app orb] in *.
  rewrite A, B, C, D, F.
  destruct (map snd (filter found (numbered 0%nat recordings)));
    destruct (map snd (filter lost (numbered 0%nat recordings)));
    split; reflexivity.
Qed.
End ReprocessFacts.

(* ===================================================================== *)
(** * The latest event of a device                                        *)
(* ===================================================================== *)

Lemma latest_fold (l : list AudioEvent) :
  forall pre x post,
    Forall (fun y => ae_dateTime y < ae_dateTime x) pre ->
    Forall (fun y => ae_dateTime y <= ae_dateTime x) post ->
    exists pre' post',
      pre ++ x :: post ++ l
      = pre' ++
        fold_left
          (fun latest event =>
             if ae_dateTime event >? ae_dateTime latest
             then event else latest) l x
        :: post' /\
      Forall (fun y =>
                ae_dateTime y <
                ae_dateTime
                  (fold_left
                     (fun latest event =>
                        if ae_dateTime event >? ae_dateTime latest
                        then event else latest) l x)) pre' /\
      Forall (fun y =>
                ae_dateTime y <=
                ae_dateTime
                  (fold_left
                     (fun latest event =>
                        if ae_dateTime event >? ae_dateTime latest
                        then event else latest) l x)) post'.
Proof.
  induction l as [|y l IH]; intros pre x post Hpre Hpost; simpl.
  - exists pre, post. rewrite app_nil_r. auto.
  - destruct (ae_dateTime y >? ae_dateTime x) eqn:C.
    + rewrite Z.gtb_ltb in C. apply Z.ltb_lt in C.
      destruct (IH (pre ++ x :: post) y []) as (pre' & post' & E & P & Q).
      * apply Forall_app. split.
        -- eapply Forall_impl; [|exact Hpre]. simpl. intros; lia.
        -- constructor; [exact C|].
           eapply Forall_impl; [|exact Hpost]. simpl. intros; lia.
      * constructor.
      * exists pre', post'. split; [|auto].
        rewrite <- E, <- app_assoc. reflexivity.
    + rewrite Z.gtb_ltb in C. apply Z.ltb_ge in C.
      destruct (IH pre x (post ++ [y])) as (pre' & post' & E & P & Q).
      * exact Hpre.
      * apply Forall_app. split; [exact Hpost | repeat constructor; exact C].
      * exists pre', post'. split; [|auto].
        rewrite <- E, <- app_assoc. reflexivity.
Qed.

(** X8: [findLatestEvent] gives [null] without a list of events and
    [undefined] for an empty list; otherwise it gives an event of the
    list that no event is later than, and of several latest events the
    first: every event before it is earlier. *)
Theorem findLatestEvent_first_of_the_latest
        (events : option (list AudioEvent)) :
  match findLatestEvent events with
  | Null => events = None
  | Undefined => events = Some []
  | Found latest =>
    exists before after,
      events = Some (before ++ latest :: after) /\
      Forall (fun e => ae_dateTime e < ae_dateTime latest) before /\
      Forall (fun e => ae_dateTime e <= ae_dateTime latest) after
  end.
Proof.
  destruct events as [[|first rest]|]; simpl; try reflexivity.
  rewrite Z.gtb_ltb, Z.ltb_irrefl.
  destruct (latest_fold rest [] first []) as (pre & post & E & P & Q);
    try constructor.
  exists pre, post. simpl in E. rewrite E. auto.
Qed.

(* ===================================================================== *)
(** * The fetch loop: pages, limits and counts                            *)
(* ===================================================================== *)

Section QueryFacts.
Context {DS : Type} `{DeviceSummaryOps DS}.
Variable source : Source.
Variable filterData : Recording -> Recording.
Variable getMultiple : list FileId -> list File.
Variable request : RecordingQuery.

Local Abbreviation Body := (body source filterData request).
Local Abbreviation Loop := (loop source filterData request).
Local Abbreviation StateAt := (state_at source filterData request).
Local Abbreviation Initial := (initial request).
Local Abbreviation Fetch := (fetch source).
Local Abbreviation Offset0 := (JS.or_zero (q_offset request)).

Lemma rows_generated_app cs1 cs2 :
  rows_generated (cs1 ++ cs2) = rows_generated cs1 + rows_generated cs2.
Proof.
  induction cs1 as [|c cs1 IH]; simpl; [reflexivity|].
  destruct c; rewrite ?IH; lia.
Qed.

(** What one run of the body does to the counters. *)
Lemma body_counters s :
  let s' := outcome_state (Body s) in
  let rows := Z.of_nat (List.length (snd (Fetch s))) in
  numRecordings s' = numRecordings s + rows /\
  rows_generated (calls s') = rows_generated (calls s) + rows /\
  fetches s' = S (fetches s) /\
  totalCount s' = snd (fst (Fetch s)) /\
  match Body s with
  | Continue _ => query_offset s' = query_offset s + rows /\ 0 < rows
  | Break _ => query_offset s' = query_offset s /\ recordings s' = []
               /\ rows = 0
  end.
Proof.
  assert (Hc : rows_generated [fst (fst (Fetch s))] = 0).
  { unfold fetch. destruct (JS.truthy_num (totalCount s)); reflexivity. }
  unfold body. destruct (Fetch s) as [[call count] rows].
  cbn [fst snd] in *.
  destruct (Z.of_nat (List.length rows) =? 0) eqn:E; cbn.
  - apply Z.eqb_eq in E. rewrite rows_generated_app, Hc, E.
    destruct rows; [|simpl in E; lia].
    repeat split; lia.
  - apply Z.eqb_neq in E.
    rewrite length_map.
    change (calls s ++ call :: ?x) with (calls s ++ [call] ++ x).
    rewrite !rows_generated_app, Hc.
    destruct (negb _); cbn; repeat split; lia.
Qed.





(** X11: Every fetch asks the source for at least 2 and at most
    [queryMax] (10000) rows: the call made on the source, [findAll] once
    a count is known and [findAndCountAll] before, is made with the query
    limit of the state, and that limit lies within these bounds. *)
Theorem fetch_limit_between_two_and_queryMax (n : nat) (s : LoopState DS) :
  state_at source filterData request n = Some s ->
  loop_test s = true ->
  fetch_limit (fst (fst (fetch source s))) = Some (query_limit s) /\
  2 <= query_limit s <= queryMax /\
  fetch source s =
  if JS.truthy_num (totalCount s)
  then (CallFindAll (query_offset s) (query_limit s),
        totalCount s,
        findAll source n (query_offset s) (query_limit s))
  else (CallFindAndCountAll (query_offset s) (query_limit s),
        Some (fst (findAndCountAll source n (query_offset s)
                                   (query_limit s))),
        snd (findAndCountAll source n (query_offset s) (query_limit s))).
Proof.
  intros E T. split; [apply fetch_is_fetch|].
  split; [|exact (fetch_applies_source _ _ _ _ _ E)].
  pose proof (state_at_flag _ _ _ _ _ E) as G.
  unfold loop_test in T. rewrite G in T. simpl in T.
  rewrite Z.gtb_ltb in T. apply Z.ltb_lt in T.
  unfold queryMax, maxVisitQueryResults in *.
  destruct n as [|n].
  - inversion E; subst s. simpl in *.
    unfold queryLimit, requestVisits, queryMax, maxVisitQueryResults in *.
    destruct (q_limit request) as [l|]; simpl; [|lia].
    destruct (l =? 0) eqn:Z0; simpl; lia.
  - apply state_at_step in E as (s0 & _ & _ & B).
    apply body_continue in B as (_ & _ & _ & L & _).
    rewrite L. unfold queryMax, maxVisitQueryResults. lia.
Qed.


(** X13: With a limit of 0 or below in the request no fetch is made: the query
    returns at once, with [hasMoreVisits] true, an undefined total count
    and the visits of a new summary from which the incomplete visits were
    removed. *)
Theorem no_visit_wanted_no_fetch (limit : Z) (fuel : nat) :
  q_limit request = Some limit ->
  limit <= 0 ->
  exists r,
    queryVisits source filterData getMultiple request fuel = Some r /\
    filter is_fetch (r_calls r) = [] /\
    r_hasMoreVisits r = true /\
    r_totalRecordings r = None /\
    r_numRecordings r = 0 /\
    r_summary r = removeIncompleteVisits newDeviceSummary.
Proof.
  intros Hl Hle.
  assert (T : loop_test Initial = false).
  { unfold loop_test. simpl. unfold requestVisits. rewrite Hl.
    rewrite Z.gtb_ltb. apply Z.ltb_ge. exact Hle. }
  eexists. split.
  - unfold queryVisits. destruct fuel; simpl; rewrite T; reflexivity.
  - repeat split; reflexivity.
Qed.



Lemma loop_more_fuel fuel :
  forall s s' k,
    Loop fuel s = Some s' -> Loop (fuel + k) s = Some s'.
Proof.
  induction fuel as [|fuel IH]; intros s s' k; simpl.
  - destruct (loop_test s) eqn:T; [discriminate|].
    intros E. destruct k; simpl; rewrite T; exact E.
  - destruct (loop_test s); [|auto].
    destruct (Body s); [apply IH | auto].
Qed.

Lemma loop_ends_on_finite_source size :
  source_ends_at source size ->
  forall k s,
    size - query_offset s <= Z.of_nat k ->
    exists s', Loop (S k) s = Some s'.
Proof.
  intros Hend. induction k as [|k IH]; intros s Hk; simpl;
    (destruct (loop_test s); [|eexists; reflexivity]);
    destruct (body_counters s) as (_ & _ & _ & _ & O);
    revert O; destruct (Body s) as [s1|s1] eqn:B;
    try (eexists; reflexivity);
    simpl; intros [O1 O2].
  - exfalso.
    assert (E : snd (Fetch s) = []).
    { unfold fetch. destruct (Hend (fetches s) (query_offset s)
                                   (query_limit s)) as [A C]; [lia|].
      destruct (JS.truthy_num (totalCount s)); simpl; assumption. }
    rewrite E in O2. simpl in O2. lia.
  - destruct (Z_lt_le_dec (query_offset s) size) as [Lt|Ge].
    + apply IH. lia.
    + exfalso.
      assert (E : snd (Fetch s) = []).
      { unfold fetch. destruct (Hend (fetches s) (query_offset s)
                                     (query_limit s)) as [A C]; [lia|].
        destruct (JS.truthy_num (totalCount s)); simpl; assumption. }
      rewrite E in O2. simpl in O2. lia.
Qed.

(** X15: Against a source that has no rows at or beyond some offset, the query
    ends: from the offset of the request to that offset it needs at most
    one fetch per row and one more, and more fuel gives the same
    result. *)
Theorem query_ends_on_a_finite_source (size : Z) :
  source_ends_at source size ->
  exists r,
    forall fuel,
      (Z.to_nat (size - JS.or_zero (q_offset request)) < fuel)%nat ->
      queryVisits source filterData getMultiple request fuel = Some r.
Proof.
  intros Hend.
  destruct (loop_ends_on_finite_source size Hend
              (Z.to_nat (size - Offset0)) Initial) as (s' & L).
  { simpl. lia. }
  exists (finish getMultiple s'). intros fuel Hf.
  unfold queryVisits.
  replace fuel with (S (Z.to_nat (size - Offset0))
                     + (fuel - S (Z.to_nat (size - Offset0))))%nat by lia.
  rewrite (loop_more_fuel _ _ _ _ L). reflexivity.
Qed.
End QueryFacts.

(* ===================================================================== *)
(** * The report: events, names and layout                                *)
(* ===================================================================== *)

Lemma row_events_app l1 l2 :
  row_events (l1 ++ l2) = row_events l1 ++ row_events l2.
Proof.
  induction l1 as [|r l1 IH]; simpl; [reflexivity|].
  destruct r; simpl; congruence.
Qed.

Lemma row_visits_app l1 l2 :
  row_visits (l1 ++ l2) = row_visits l1 ++ row_visits l2.
Proof.
  induction l1 as [|r l1 IH]; simpl; [reflexivity|].
  destruct r; simpl; congruence.
Qed.

Lemma merge_rows_events events :
  forall stack,
    row_events (merge_rows events stack) = events /\
    row_visits (merge_rows events stack) = [] /\
    List.length (merge_rows events stack)
    = (List.length events + List.length stack)%nat.
Proof.
  assert (B : forall l, row_events (map audioBaitRow l) = [] /\
                        row_visits (map audioBaitRow l) = []).
  { induction l as [|a l [IH1 IH2]]; simpl; auto. }
  induction events as [|event events IH]; intros stack; simpl.
  - destruct (B stack) as [-> ->]. rewrite length_map. auto.
  - pose proof (span_app (played_after (ve_start event)) stack) as E.
    destruct (span (played_after (ve_start event)) stack) as [before rest].
    simpl in E. destruct (IH rest) as (I1 & I2 & I3).
    rewrite row_events_app, row_visits_app, length_app, length_map.
    destruct (B before) as [-> ->]. simpl. rewrite I1, I2, I3.
    subst stack. rewrite length_app. repeat split. lia.
Qed.

(** X16: The loop over the visits shows every event of a visit once, in the
    order the visit stores them; no visit row comes between the rows of
    one visit, and a visit has as many rows after its visit row as it has
    events and audio events. *)
Theorem each_event_has_one_row (visits : list Visit) (out : list Row) :
  exists blocks,
    visits_loop visits out = Some (out ++ concat blocks) /\
    Forall2
      (fun visit block =>
         exists rows,
           block = RowVisit visit :: rows /\
           row_events rows = v_events visit /\
           row_visits rows = [] /\
           List.length rows
           = (List.length (v_events visit)
              + List.length (v_audioBaitEvents visit))%nat)
      visits blocks.
Proof.
  exists (map visit_block visits). split.
  - rewrite visits_loop_spec, flat_map_concat_map. reflexivity.
  - induction visits as [|visit visits IH]; simpl; constructor; [|exact IH].
    eexists. split; [reflexivity|].
    destruct (merge_rows_events
                (v_events visit)
                (rev (JS.sort audio_comparefn (v_audioBaitEvents visit))))
      as (E1 & E2 & E3).
    rewrite E1, E2, E3. repeat split.
    rewrite (Permutation_length (audio_stack_perm _)). reflexivity.
Qed.

(** The name the lookup gives a file id is the name of the last file of
    the lookup that carries the id. *)
Lemma get_name_resolved earlier file later :
  (forall g, In g later -> f_id g <> f_id file) ->
  forall m,
    get_name (fold_left set_name (earlier ++ file :: later) m) (f_id file)
    = JS.CString (f_name file).
Proof.
  intros N m. rewrite fold_left_app. simpl.
  rewrite get_name_unresolved by exact N.
  simpl. rewrite Z.eqb_refl. reflexivity.
Qed.

Section ReportMoreFacts.
Context {DS : Type} `{DeviceSummaryOps DS}.
Variable source : Source.
Variable filterData : Recording -> Recording.
Variable getMultiple : list FileId -> list File.
Variable reportDeviceVisits : DS -> list (list string).
Variable request : RecordingQuery.

(** X17: An audio-bait row whose file the bulk lookup finds shows the name of
    the file, the last one when several files of the lookup carry the id;
    its [Audio Played] cell is the name, followed by [vol N] when the
    event has a volume. *)
Theorem resolved_file_names_the_bait
        (fuel : nat) (results : VisitsResult DS) (rows : list Row)
        (audioBait : AudioEvent) (what played : JS.cell)
        (earlier later : list File) (file : File) :
  queryVisits source filterData getMultiple request fuel = Some results ->
  reportVisits source filterData getMultiple reportDeviceVisits request fuel
  = Some rows ->
  In (RowAudioBait audioBait what played) rows ->
  getMultiple (allAudioFileIds (r_summary results))
  = earlier ++ file :: later ->
  f_id file = ae_fileId audioBait ->
  (forall g, In g later -> f_id g <> ae_fileId audioBait) ->
  what = JS.CString (f_name file) /\
  played =
    if JS.truthy_num (ae_volume audioBait)
    then JS.CString
           (f_name file ++ " vol " ++
            JS.num_to_string (JS.or_zero (ae_volume audioBait)))
    else JS.CString (f_name file).
Proof.
  intros E R Hin Hf Hid Hlater.
  destruct (report_bait_row _ _ _ _ _ _ _ _ _ _ _ E R Hin)
    as (-> & -> & Hn).
  rewrite Hf, <- Hid in Hn.
  rewrite get_name_resolved in Hn
    by (intros g Hg; rewrite Hid; apply Hlater, Hg).
  unfold audioPlayed_cell. rewrite Hn. split; reflexivity.
Qed.

(** X18: The report is laid out as the device rows, an empty row, the header
    and then the rows of the visits, whose visit rows are the visits the
    query returned, in the same order. *)
Theorem report_lists_the_visits_in_order
        (fuel : nat) (results : VisitsResult DS) :
  queryVisits source filterData getMultiple request fuel = Some results ->
  exists rest,
    reportVisits source filterData getMultiple reportDeviceVisits request
                 fuel
    = Some (map RowCells (reportDeviceVisits (r_summary results))
              ++ RowCells [] :: RowCells visits_header :: rest) /\
    row_visits rest = r_visits results /\
    Forall (fun r => match r with RowCells _ => False | _ => True end) rest.
Proof.
  intros E. exists (flat_map visit_block (r_visits results)).
  split; [apply reportVisits_rows, E|].
  generalize (r_visits results). clear.
  induction l as [|v l [IH1 IH2]]; simpl; [auto|].
  destruct (merge_rows_events
              (v_events v)
              (rev (JS.sort audio_comparefn (v_audioBaitEvents v))))
    as (_ & E2 & _).
  rewrite row_visits_app, E2, IH1. split; [reflexivity|].
  constructor; [exact I|].
  apply Forall_app. split; [|exact IH2].
  eapply Forall_impl; [|apply merge_rows_timed].
  intros r. destruct r; simpl; auto. discriminate.
Qed.
End ReportMoreFacts.

(* ===================================================================== *)
(** * The sort under a comparison function that follows an order          *)
(* ===================================================================== *)

Section SortOrdered.
Context {A : Type} (comparefn : A -> A -> Z).
Context (D : A -> Prop) (le : A -> A -> Prop).
(** On the elements of [D], a negative comparison puts the first argument
    before the second in the order, any other puts the second before the
    first. *)
Hypothesis le_trans : forall a b c, le a b -> le b c -> le a c.
Hypothesis cmp_neg :
  forall a b, D a -> D b -> comparefn a b < 0 -> le a b.
Hypothesis cmp_nonneg :
  forall a b, D a -> D b -> 0 <= comparefn a b -> le b a.

Lemma run_extend_split d previous l run rest :
  JS.run_extend comparefn d previous l = (run, rest) -> l = run ++ rest.
Proof.
  revert previous run rest.
  induction l as [|x l IH]; simpl; intros previous run rest E.
  - inversion E. reflexivity.
  - destruct (if d then _ else _).
    + inversion E. reflexivity.
    + destruct (JS.run_extend comparefn d x l) as [run' rest'] eqn:E'.
      inversion E; subst. simpl. f_equal. eapply IH, E'.
Qed.

Lemma run_extend_down previous l run rest :
  Forall D (previous :: l) ->
  JS.run_extend comparefn true previous l = (run, rest) ->
  StronglySorted (fun x y => le y x) (previous :: run).
Proof.
  revert previous run rest.
  induction l as [|x l IH]; simpl; intros previous run rest F E.
  - inversion E. repeat constructor.
  - inversion F as [|? ? Dp F']; subst. inversion F' as [|? ? Dx F'']; subst.
    destruct (comparefn x previous >=? 0) eqn:C.
    + inversion E. repeat constructor.
    + destruct (JS.run_extend comparefn true x l) as [run' rest'] eqn:E'.
      inversion E; subst.
      rewrite Z.geb_leb in C. apply Z.leb_gt in C.
      pose proof (cmp_neg _ _ Dx Dp C) as L.
      pose proof (IH _ _ _ F' E') as S.
      constructor; [exact S|].
      apply StronglySorted_inv in S as [_ Fx].
      constructor; [exact L|].
      eapply Forall_impl; [|exact Fx]. simpl. intros a La.
      eapply le_trans; eassumption.
Qed.

Lemma run_extend_up previous l run rest :
  Forall D (previous :: l) ->
  JS.run_extend comparefn false previous l = (run, rest) ->
  StronglySorted le (previous :: run).
Proof.
  revert previous run rest.
  induction l as [|x l IH]; simpl; intros previous run rest F E.
  - inversion E. repeat constructor.
  - inversion F as [|? ? Dp F']; subst. inversion F' as [|? ? Dx F'']; subst.
    destruct (comparefn x previous <? 0) eqn:C.
    + inversion E. repeat constructor.
    + destruct (JS.run_extend comparefn false x l) as [run' rest'] eqn:E'.
      inversion E; subst. apply Z.ltb_ge in C.
      pose proof (cmp_nonneg _ _ Dx Dp C) as L.
      pose proof (IH _ _ _ F' E') as S.
      constructor; [exact S|].
      apply StronglySorted_inv in S as [_ Fx].
      constructor; [exact L|].
      eapply Forall_impl; [|exact Fx]. simpl. intros a La.
      eapply le_trans; eassumption.
Qed.

Lemma countAndMakeRun_ordered l run rest :
  Forall D l ->
  JS.countAndMakeRun comparefn l = (run, rest) ->
  StronglySorted le run /\ Permutation l (run ++ rest).
Proof.
  unfold JS.countAndMakeRun.
  destruct l as [|x0 [|x1 l]]; intros F E.
  - inversion E. split; constructor.
  - inversion E. split; repeat constructor.
  - destruct (JS.run_extend comparefn (comparefn x1 x0 <? 0) x1 l)
      as [run' rest'] eqn:E'.
    pose proof (run_extend_split _ _ _ _ _ E') as ->.
    inversion F as [|? ? D0 F']; subst.
    inversion F' as [|? ? D1 F'']; subst.
    destruct (comparefn x1 x0 <? 0) eqn:C; inversion E; subst; clear E.
    + apply Z.ltb_lt in C.
      pose proof (cmp_neg _ _ D1 D0 C) as L.
      pose proof (run_extend_down _ _ _ _ F' E') as S.
      split.
      * change ((rev run' ++ [x1]) ++ [x0]) with (rev (x0 :: x1 :: run')).
        apply (StronglySorted_rev_flip (fun x y => le y x)).
        constructor; [exact S|].
        constructor; [exact L|].
        apply StronglySorted_inv in S as [_ Fx].
        eapply Forall_impl; [|exact Fx]. simpl. intros a La.
        eapply le_trans; eassumption.
      * change (Permutation ((x0 :: x1 :: run') ++ rest)
                            (rev (x0 :: x1 :: run') ++ rest)).
        apply Permutation_app_tail, Permutation_rev.
    + apply Z.ltb_ge in C.
      pose proof (cmp_nonneg _ _ D1 D0 C) as L.
      pose proof (run_extend_up _ _ _ _ F' E') as S.
      split; [|apply Permutation_refl].
      constructor; [exact S|].
      constructor; [exact L|].
      apply StronglySorted_inv in S as [_ Fx].
      eapply Forall_impl; [|exact Fx]. simpl. intros a La.
      eapply le_trans; eassumption.
Qed.

Lemma bsearch_ordered pivot work :
  D pivot -> Forall D work ->
  StronglySorted le work ->
  forall fuel left right,
    (left <= right <= List.length work)%nat ->
    (right - left <= fuel)%nat ->
    (forall i, (i < left)%nat -> le (nth i work pivot) pivot) ->
    (forall i, (right <= i < List.length work)%nat ->
               le pivot (nth i work pivot)) ->
    let p := JS.bsearch comparefn fuel pivot work left right in
    (p <= List.length work)%nat /\
    (forall i, (i < p)%nat -> le (nth i work pivot) pivot) /\
    (forall i, (p <= i < List.length work)%nat ->
               le pivot (nth i work pivot)).
Proof.
  intros Dp Dw S.
  induction fuel as [|fuel IH]; intros left right B F L U;
    cbn [JS.bsearch].
  - assert (left = right) by lia. subst right.
    repeat split; [lia | exact L | exact U].
  - destruct (left <? right)%nat eqn:C.
    + apply Nat.ltb_lt in C.
      set (mid := (left + (right - left) / 2)%nat).
      assert (Hmid : (left <= mid < right)%nat).
      { unfold mid. split; [lia|].
        assert ((right - left) / 2 < right - left)%nat
          by (apply Nat.div_lt; lia).
        lia. }
      assert (Dm : D (nth mid work pivot)).
      { rewrite Forall_forall in Dw. apply Dw, nth_In. lia. }
      destruct (comparefn pivot (nth mid work pivot) <? 0) eqn:O.
      * apply Z.ltb_lt in O.
        pose proof (cmp_neg _ _ Dp Dm O) as Lm.
        apply IH; [lia | lia | exact L |].
        intros i Hi. destruct (Nat.eq_dec i mid) as [->|Ne]; [exact Lm|].
        pose proof (StronglySorted_nth _ work pivot S mid i) as M.
        simpl in M. specialize (M ltac:(lia)).
        eapply le_trans; eassumption.
      * apply Z.ltb_ge in O.
        pose proof (cmp_nonneg _ _ Dp Dm O) as Lm.
        apply IH; [lia | lia | | exact U].
        intros i Hi.
        destruct (Nat.eq_dec i mid) as [->|Ne]; [exact Lm|].
        pose proof (StronglySorted_nth _ work pivot S i mid) as M.
        simpl in M. specialize (M ltac:(lia)).
        eapply le_trans; eassumption.
    + apply Nat.ltb_ge in C. assert (left = right) by lia. subst right.
      repeat split; [lia | exact L | exact U].
Qed.

Lemma insert_ordered pivot work :
  D pivot -> Forall D work ->
  StronglySorted le work ->
  StronglySorted le
    (JS.insert_at
       (JS.bsearch comparefn (List.length work) pivot work 0
                   (List.length work))
       pivot work).
Proof.
  intros Dp Dw S.
  destruct (bsearch_ordered pivot work Dp Dw S (List.length work) 0
                            (List.length work))
    as (Hp & Hlt & Hge); try lia.
  set (p := JS.bsearch _ _ _ _ _ _) in *.
  unfold JS.insert_at.
  pose proof S as S'.
  rewrite <- (firstn_skipn p work) in S'.
  apply StronglySorted_app_inv in S' as (S1 & S2 & Hc).
  apply StronglySorted_app_intro; [exact S1| |].
  - constructor; [exact S2|].
    apply Forall_forall. intros y Hy.
    destruct (In_nth _ _ pivot Hy) as (i & Hi & <-).
    rewrite nth_skipn. rewrite length_skipn in Hi. apply Hge. lia.
  - intros x y Hx [<-|Hy]; [|auto].
    destruct (In_nth _ _ pivot Hx) as (i & Hi & <-).
    rewrite length_firstn in Hi.
    rewrite nth_firstn.
    assert (C : (i <? p)%nat = true) by (apply Nat.ltb_lt; lia).
    rewrite C. apply Hlt. lia.
Qed.

Lemma binaryInsertionSort_ordered rest :
  forall sorted,
    Forall D sorted -> Forall D rest ->
    StronglySorted le sorted ->
    StronglySorted le (JS.binaryInsertionSort comparefn sorted rest) /\
    Permutation (sorted ++ rest)
                (JS.binaryInsertionSort comparefn sorted rest).
Proof.
  induction rest as [|pivot rest IH]; intros sorted Ds Dr S; simpl.
  - rewrite app_nil_r. split; [exact S | apply Permutation_refl].
  - inversion Dr as [|? ? Dp Dr']; subst.
    destruct (IH (JS.insert_at
                    (JS.bsearch comparefn (List.length sorted) pivot sorted 0
                                (List.length sorted)) pivot sorted))
      as [S' P'].
    + eapply Permutation_Forall;
        [symmetry; apply insert_at_perm|].
      constructor; assumption.
    + exact Dr'.
    + apply insert_ordered; assumption.
    + split; [exact S'|].
      etransitivity; [|exact P'].
      apply Permutation_sym.
      etransitivity;
        [apply Permutation_app_tail, insert_at_perm|].
      simpl. apply Permutation_middle.
Qed.

(** The sorted array is in the order, and holds the elements it held. *)
Lemma sort_ordered l :
  Forall D l ->
  StronglySorted le (JS.sort comparefn l) /\
  Permutation l (JS.sort comparefn l).
Proof.
  intros Dl. unfold JS.sort.
  destruct (JS.countAndMakeRun comparefn l) as [run rest] eqn:E.
  destruct (countAndMakeRun_ordered _ _ _ Dl E) as [S P].
  assert (Dr : Forall D (run ++ rest))
    by (eapply Permutation_Forall; eassumption).
  apply Forall_app in Dr as [Drun Drest].
  destruct (binaryInsertionSort_ordered rest run Drun Drest S) as [S' P'].
  split; [exact S'|]. etransitivity; eassumption.
Qed.
End SortOrdered.

(* ===================================================================== *)
(** * Matching a recording to a station                                   *)
(* ===================================================================== *)

Lemma sgn_negative n : Z.sgn n < 0 <-> n < 0.
Proof. destruct n; simpl; lia. Qed.

Lemma sgn_nonnegative n : 0 <= Z.sgn n <-> 0 <= n.
Proof. destruct n; simpl; lia. Qed.

Lemma difference_negative (da db : Q) :
  Qnum (db - da)%Q < 0 <-> (db < da)%Q.
Proof.
  unfold Qlt, Qminus, Qplus, Qopp. simpl. lia.
Qed.

Lemma difference_nonnegative (da db : Q) :
  0 <= Qnum (db - da)%Q <-> (da <= db)%Q.
Proof.
  unfold Qle, Qminus, Qplus, Qopp. simpl. lia.
Qed.

Section MatchStationFacts.
Variable latLngApproxDistance : Coordinates -> Coordinates -> option Q.
Variable group_stations : list Station.

Local Abbreviation has_distance :=
  (fun sd : StationDistance => exists d, distanceToStation sd = Some d).
Local Abbreviation distance_or_zero :=
  (fun sd : StationDistance =>
     match distanceToStation sd with Some d => d | None => 0%Q end).
Local Abbreviation farther_first :=
  (fun a b : StationDistance =>
     (distance_or_zero b <= distance_or_zero a)%Q).

Lemma valid_sorted (valid : list StationDistance) :
  Forall (fun sd => within_station_distance sd = true) valid ->
  StronglySorted farther_first (JS.sort distance_comparefn valid) /\
  Permutation valid (JS.sort distance_comparefn valid).
Proof.
  intros V.
  apply (sort_ordered distance_comparefn has_distance farther_first).
  - intros a b c Hab Hbc. eapply Qle_trans; eassumption.
  - intros a b [da Ea] [db Eb]. unfold distance_comparefn.
    rewrite Ea, Eb. rewrite sgn_negative, difference_negative.
    apply Qlt_le_weak.
  - intros a b [da Ea] [db Eb]. unfold distance_comparefn.
    rewrite Ea, Eb. rewrite sgn_nonnegative, difference_nonnegative.
    auto.
  - eapply Forall_impl; [|exact V]. intros sd W.
    unfold within_station_distance in W.
    destruct (distanceToStation sd) as [d|]; [eauto | discriminate].
Qed.

(** X19: [tryToMatchRecordingToStation] gives a station only to a recording
    that has a location, and then a station of the candidates (those of
    the caller, or of the group when the caller gives none) that lies
    within [MAX_DISTANCE_FROM_STATION_FOR_RECORDING] and that no candidate
    with a distance is nearer than.  It gives [null] for a recording
    without a location, and when no candidate lies within that
    distance. *)
Theorem tryToMatchRecordingToStation_takes_the_closest
        (location : option Coordinates) (stations : option (list Station)) :
  let candidates :=
    match stations with
    | Some stations => stations
    | None => group_stations
    end in
  match tryToMatchRecordingToStation latLngApproxDistance group_stations
                                     location stations with
  | Some st =>
    exists loc d,
      location = Some loc /\
      In st candidates /\
      latLngApproxDistance (st_coordinates st) loc = Some d /\
      (d <= MAX_DISTANCE_FROM_STATION_FOR_RECORDING)%Q /\
      forall st' d',
        In st' candidates ->
        latLngApproxDistance (st_coordinates st') loc = Some d' ->
        (d <= d')%Q
  | None =>
    location = None \/
    exists loc,
      location = Some loc /\
      forall st' d',
        In st' candidates ->
        latLngApproxDistance (st_coordinates st') loc = Some d' ->
        ~ (d' <= MAX_DISTANCE_FROM_STATION_FOR_RECORDING)%Q
  end.
Proof.
  intros candidates. unfold tryToMatchRecordingToStation.
  destruct location as [loc|]; [|left; reflexivity].
  fold candidates.
  set (valid := filter within_station_distance
                       (station_distances latLngApproxDistance loc
                                          candidates)).
  assert (V : Forall (fun sd => within_station_distance sd = true) valid).
  { apply Forall_forall. intros sd Hsd. apply filter_In in Hsd. tauto. }
  destruct (valid_sorted valid V) as [S P].
  assert (Member : forall st' d',
             In st' candidates ->
             latLngApproxDistance (st_coordinates st') loc = Some d' ->
             (d' <= MAX_DISTANCE_FROM_STATION_FOR_RECORDING)%Q ->
             In {| distanceToStation := Some d'; station := st' |}
                (JS.sort distance_comparefn valid)).
  { intros st' d' Hin Hd Hle.
    eapply Permutation_in; [exact P|].
    apply filter_In. split.
    - unfold station_distances. apply in_map_iff. exists st'.
      rewrite Hd. auto.
    - unfold within_station_distance. simpl.
      apply Qle_bool_iff. exact Hle. }
  unfold JS.pop.
  destruct (rev (JS.sort distance_comparefn valid)) as [|x r] eqn:R; simpl.
  - right. exists loc. split; [reflexivity|].
    intros st' d' Hin Hd Hle.
    pose proof (Member _ _ Hin Hd Hle) as M.
    apply in_rev in M. rewrite R in M. exact M.
  - assert (Es : JS.sort distance_comparefn valid = rev r ++ [x]).
    { rewrite <- (rev_involutive (JS.sort distance_comparefn valid)), R.
      reflexivity. }
    assert (Hx : In x valid).
    { eapply Permutation_in; [symmetry; exact P|].
      rewrite Es. apply in_or_app. right. simpl. auto. }
    apply filter_In in Hx as [Hx Wx].
    unfold station_distances in Hx.
    apply in_map_iff in Hx as (st & <- & Hst). simpl.
    unfold within_station_distance in Wx. simpl in Wx.
    destruct (latLngApproxDistance (st_coordinates st) loc) as [d|] eqn:Ed;
      [|discriminate].
    apply Qle_bool_iff in Wx.
    exists loc, d. repeat split; try assumption.
    intros st' d' Hin Hd.
    destruct (Qlt_le_dec MAX_DISTANCE_FROM_STATION_FOR_RECORDING d')
      as [Far|Near].
    + apply Qlt_le_weak. eapply Qle_lt_trans; eassumption.
    + pose proof (Member _ _ Hin Hd Near) as M.
      rewrite Es in S, M.
      apply StronglySorted_app_inv in S as (_ & _ & Hc).
      apply in_app_or in M as [M | [M | []]].
      * specialize (Hc _ _ M (or_introl eq_refl)). simpl in Hc.
        exact Hc.
      * inversion M; subst. apply Qle_refl.
Qed.
End MatchStationFacts.

(* ===================================================================== *)
(** * The tags of a recording in the report                               *)
(* ===================================================================== *)

Lemma ascii_compare_refl a : Ascii.compare a a = Eq.
Proof. unfold Ascii.compare. apply N.compare_refl. Qed.

Lemma string_compare_lt_trans a :
  forall b c,
    String.compare a b = Lt -> String.compare b c = Lt ->
    String.compare a c = Lt.
Proof.
  induction a as [|x a IH]; intros [|y b] [|z c]; simpl;
    try discriminate; try reflexivity.
  destruct (Ascii.compare x y) eqn:Exy; try discriminate;
    destruct (Ascii.compare y z) eqn:Eyz; try discriminate; intros Hab Hbc.
  - apply Ascii.compare_eq_iff in Exy, Eyz. subst.
    rewrite ascii_compare_refl. eapply IH; eassumption.
  - apply Ascii.compare_eq_iff in Exy. subst. rewrite Eyz. reflexivity.
  - apply Ascii.compare_eq_iff in Eyz. subst. rewrite Exy. reflexivity.
  - unfold Ascii.compare in *.
    rewrite N.compare_lt_iff in *.
    assert (L : (N_of_ascii x < N_of_ascii z)%N) by lia.
    apply N.compare_lt_iff in L. rewrite L. reflexivity.
Qed.

Lemma string_leb_trans a b c :
  String.leb a b = true -> String.leb b c = true -> String.leb a c = true.
Proof.
  unfold String.leb.
  destruct (String.compare a b) eqn:Eab; try discriminate;
    destruct (String.compare b c) eqn:Ebc; try discriminate; intros _ _.
  - apply String.compare_eq_iff in Eab, Ebc. subst.
    destruct (String.leb_total c c) as [T|T]; exact T.
  - apply String.compare_eq_iff in Eab. subst. rewrite Ebc. reflexivity.
  - apply String.compare_eq_iff in Ebc. subst. rewrite Eab. reflexivity.
  - rewrite (string_compare_lt_trans _ _ _ Eab Ebc). reflexivity.
Qed.

Lemma string_ltb_leb a b : String.ltb a b = true -> String.leb a b = true.
Proof.
  unfold String.ltb, String.leb.
  destruct (String.compare a b); intros; congruence.
Qed.

Lemma string_not_ltb_leb a b :
  String.ltb a b = false -> String.leb b a = true.
Proof.
  unfold String.ltb, String.leb. rewrite (String.compare_antisym a b).
  destruct (String.compare b a); simpl; intros; congruence.
Qed.

Local Abbreviation by_text :=
  (fun x y : subject =>
     String.leb (subject_text x) (subject_text y) = true).

(** The sort without a comparison function puts the subjects in the order
    of their texts. *)
Lemma default_sort_ordered (tags : list subject) :
  StronglySorted by_text (JS.sort default_comparefn tags) /\
  Permutation tags (JS.sort default_comparefn tags).
Proof.
  apply (sort_ordered default_comparefn (fun _ => True) by_text).
  - intros a b c. apply string_leb_trans.
  - intros a b _ _. unfold default_comparefn.
    destruct (String.ltb (subject_text a) (subject_text b)) eqn:L.
    + intros _. apply string_ltb_leb, L.
    + destruct (String.ltb (subject_text b) (subject_text a)); lia.
  - intros a b _ _. unfold default_comparefn.
    destruct (String.ltb (subject_text a) (subject_text b)) eqn:L; [lia|].
    intros _. apply string_not_ltb_leb, L.
  - apply Forall_forall. auto.
Qed.

(** Two lists in order that hold the same elements are the same list,
    when the order tells the elements apart. *)
Lemma sorted_permutation_unique {A : Type} (R : A -> A -> Prop)
      (l1 : list A) :
  forall l2,
    (forall x y, In x l1 -> In y l1 -> R x y -> R y x -> x = y) ->
    StronglySorted R l1 -> StronglySorted R l2 ->
    Permutation l1 l2 -> l1 = l2.
Proof.
  induction l1 as [|a l1 IH]; intros l2 Anti S1 S2 P.
  - apply Permutation_nil in P. congruence.
  - destruct l2 as [|b l2];
      [apply Permutation_sym, Permutation_nil in P; discriminate|].
    apply StronglySorted_inv in S1 as [S1 F1].
    apply StronglySorted_inv in S2 as [S2 F2].
    rewrite Forall_forall in F1, F2.
    assert (Eab : a = b).
    { assert (Ha : In a (b :: l2))
        by (eapply Permutation_in; [exact P | simpl; auto]).
      assert (Hb : In b (a :: l1))
        by (eapply Permutation_in; [symmetry; exact P | simpl; auto]).
      destruct Ha as [Ha|Ha]; [congruence|].
      destruct Hb as [Hb|Hb]; [congruence|].
      apply Anti; simpl; auto. }
    subst b. f_equal.
    apply IH; try assumption.
    + intros x y Hx Hy. apply Anti; simpl; auto.
    + eapply Permutation_cons_inv. exact P.
Qed.

(** X20: [formatTags] does not depend on the order in which the tags come:
    tags with different texts, as the distinct subjects of a set are
    unless one is the text [null], give the same cell in any order. *)
Theorem formatTags_ignores_the_order (tags1 tags2 : list subject) :
  Permutation tags1 tags2 ->
  NoDup (map subject_text tags1) ->
  formatTags tags1 = formatTags tags2.
Proof.
  intros P N. unfold formatTags. f_equal. f_equal.
  destruct (default_sort_ordered tags1) as [S1 P1].
  destruct (default_sort_ordered tags2) as [S2 P2].
  apply (sorted_permutation_unique by_text); try assumption.
  - intros x y Hx Hy Lxy Lyx.
    pose proof (String.leb_antisym _ _ Lxy Lyx) as Et.
    assert (Hx1 : In x tags1)
      by (eapply Permutation_in; [symmetry; exact P1 | exact Hx]).
    assert (Hy1 : In y tags1)
      by (eapply Permutation_in; [symmetry; exact P1 | exact Hy]).
    clear -N Et Hx1 Hy1.
    induction tags1 as [|t l IH]; simpl in *; [contradiction|].
    inversion N as [|? ? Nt Nl]; subst.
    destruct Hx1 as [<-|Hx1], Hy1 as [<-|Hy1]; auto.
    + exfalso. apply Nt. rewrite Et. apply in_map, Hy1.
    + exfalso. apply Nt. rewrite <- Et. apply in_map, Hx1.
  - etransitivity; [symmetry; exact P1|].
    etransitivity; [exact P | exact P2].
Qed.

Lemma subject_eqb_eq x y : subject_eqb x y = true <-> x = y.
Proof.
  destruct x as [a|], y as [b|]; simpl; try (split; congruence).
  rewrite String.eqb_eq. split; congruence.
Qed.

Lemma set_add_spec s x :
  NoDup s ->
  NoDup (set_add s x) /\ forall y, In y (set_add s x) <-> y = x \/ In y s.
Proof.
  intros N. unfold set_add.
  destruct (existsb (subject_eqb x) s) eqn:E.
  - split; [exact N|]. intros y. split; [auto|].
    intros [->|Hy]; [|exact Hy].
    apply existsb_exists in E as (z & Hz & Ez).
    apply subject_eqb_eq in Ez. subst z. exact Hz.
  - split.
    + apply NoDup_app; [exact N | repeat constructor; intros [] | ].
      intros z Hz [Ez|[]]. subst z.
      assert (T : existsb (subject_eqb x) s = true).
      { apply existsb_exists. exists x. split; [exact Hz|].
        apply subject_eqb_eq. reflexivity. }
      congruence.
    + intros y. rewrite in_app_iff. simpl. intuition.
Qed.

Lemma add_track_tags_spec (tags : list TrackTag) :
  forall sets,
    NoDup (fst sets) -> NoDup (snd sets) ->
    let sets' := fold_left add_track_tag tags sets in
    NoDup (fst sets') /\ NoDup (snd sets') /\
    (forall x, In x (fst sets') <->
               In x (fst sets) \/
               exists tag, In tag tags /\ tt_automatic tag = true /\
                           tag_subject (tt_what tag) (tt_detail tag) = x) /\
    (forall x, In x (snd sets') <->
               In x (snd sets) \/
               exists tag, In tag tags /\ tt_automatic tag = false /\
                           tag_subject (tt_what tag) (tt_detail tag) = x).
Proof.
  induction tags as [|tag tags IH]; intros [auto_ human] Na Nh; simpl in *.
  - repeat split; auto; intros [?|(? & [] & _)]; assumption.
  - unfold add_track_tag at 2 4 6 8. simpl.
    destruct (tt_automatic tag) eqn:T.
    + destruct (set_add_spec auto_
                  (tag_subject (tt_what tag) (tt_detail tag)) Na)
        as [Na' Ia].
      destruct (IH (set_add auto_ (tag_subject (tt_what tag) (tt_detail tag)),
                    human) Na' Nh) as (A & B & C & D).
      simpl in *. repeat split; try assumption.
      * intros Hx. apply C in Hx as [Hx|(t & Ht & Ta & Es)].
        -- apply Ia in Hx as [->|Hx]; [right; exists tag; auto | auto].
        -- right. exists t. auto.
      * intros [Hx|(t & [<-|Ht] & Ta & Es)]; apply C.
        -- left. apply Ia. auto.
        -- left. apply Ia. auto.
        -- right. exists t. auto.
      * intros Hx. apply D in Hx as [Hx|(t & Ht & Ta & Es)]; [auto|].
        right. exists t. auto.
      * intros [Hx|(t & [<-|Ht] & Ta & Es)]; apply D; [auto | congruence |].
        right. exists t. auto.
    + destruct (set_add_spec human
                  (tag_subject (tt_what tag) (tt_detail tag)) Nh)
        as [Nh' Ih].
      destruct (IH (auto_,
                    set_add human (tag_subject (tt_what tag) (tt_detail tag)))
                   Na Nh') as (A & B & C & D).
      simpl in *. repeat split; try assumption.
      * intros Hx. apply C in Hx as [Hx|(t & Ht & Ta & Es)]; [auto|].
        right. exists t. auto.
      * intros [Hx|(t & [<-|Ht] & Ta & Es)]; apply C; [auto | congruence |].
        right. exists t. auto.
      * intros Hx. apply D in Hx as [Hx|(t & Ht & Ta & Es)].
        -- apply Ih in Hx as [->|Hx]; [right; exists tag; auto | auto].
        -- right. exists t. auto.
      * intros [Hx|(t & [<-|Ht] & Ta & Es)]; apply D.
        -- left. apply Ih. auto.
        -- left. apply Ih. auto.
        -- right. exists t. auto.
Qed.

Lemma track_tag_sets_concat (tracks : list (list TrackTag)) :
  forall sets,
    fold_left (fun sets track => fold_left add_track_tag track sets)
              tracks sets
    = fold_left add_track_tag (concat tracks) sets.
Proof.
  induction tracks as [|track tracks IH]; intros sets; simpl;
    [reflexivity|].
  rewrite fold_left_app. apply IH.
Qed.

(** X21: The two sets of track tags of a recording: each holds a subject once,
    the automatic set exactly the subjects of the automatic tags of the
    tracks and the human set exactly the subjects of the other tags. *)
Theorem track_tag_sets_hold_each_subject_once
        (tracks : list (list TrackTag)) :
  let sets := track_tag_sets tracks in
  NoDup (fst sets) /\ NoDup (snd sets) /\
  (forall x, In x (fst sets) <->
             exists track tag,
               In track tracks /\ In tag track /\
               tt_automatic tag = true /\
               tag_subject (tt_what tag) (tt_detail tag) = x) /\
  (forall x, In x (snd sets) <->
             exists track tag,
               In track tracks /\ In tag track /\
               tt_automatic tag = false /\
               tag_subject (tt_what tag) (tt_detail tag) = x).
Proof.
  simpl. unfold track_tag_sets. rewrite track_tag_sets_concat.
  destruct (add_track_tags_spec (concat tracks) ([], [])
                                (NoDup_nil _) (NoDup_nil _))
    as (A & B & C & D).
  simpl in *. split; [exact A|]. split; [exact B|].
  split; intros x; split.
  - intros Hx. apply C in Hx as [[]|(t & Ht & Ta & Es)].
    apply in_concat in Ht as (track & Htr & Ht). eauto 8.
  - intros (track & t & Htr & Ht & Ta & Es). apply C. right.
    exists t. split; [apply in_concat; eauto | auto].
  - intros Hx. apply D in Hx as [[]|(t & Ht & Ta & Es)].
    apply in_concat in Ht as (track & Htr & Ht). eauto 8.
  - intros (track & t & Htr & Ht & Ta & Es). apply D. right.
    exists t. split; [apply in_concat; eauto | auto].
Qed.

(* ===================================================================== *)
(** * Runs of the other operations                                        *)
(* ===================================================================== *)

Lemma moveLegacyField_moves_witness :
  let tag := [("animal", Obj.VStr "cat"); ("confidence", Obj.VNum 90)]%string
  in
  Obj.get (after (moveLegacyField tag "animal" "what")) "what"
  = Obj.VStr "cat" /\
  Obj.has (after (moveLegacyField tag "animal" "what")) "animal" = false /\
  Obj.get (after (moveLegacyField tag "animal" "what")) "confidence"
  = Obj.VNum 90.
Proof.
  intros tag.
  destruct (moveLegacyField_moves tag "animal" "what")
    as (_ & W & A & K);
    [discriminate | reflexivity | reflexivity |].
  split; [exact W|]. split; [exact A|].
  apply K; discriminate.
Defined.

Lemma handleLegacyTagFieldsForCreate_moves_both_witness :
  let tag := [("animal", Obj.VStr "cat"); ("event", Obj.VStr "seen")]%string
  in
  thrown (handleLegacyTagFieldsForCreate tag) = None /\
  Obj.get (after (handleLegacyTagFieldsForCreate tag)) "what"
  = Obj.VStr "cat" /\
  Obj.get (after (handleLegacyTagFieldsForCreate tag)) "detail"
  = Obj.VStr "seen".
Proof.
  intros tag.
  destruct (handleLegacyTagFieldsForCreate_moves_both tag) as (_ & M).
  destruct (M eq_refl) as (W & D & _).
  split; [reflexivity|]. split; [exact W | exact D].
Defined.

Lemma handleLegacyTagFieldsForCreate_twice_witness :
  let tag := [("animal", Obj.VStr "cat"); ("event", Obj.VStr "seen")]%string
  in
  thrown (handleLegacyTagFieldsForCreate tag) = None /\
  handleLegacyTagFieldsForCreate (after (handleLegacyTagFieldsForCreate tag))
  = {| after := after (handleLegacyTagFieldsForCreate tag);
       thrown := None |}.
Proof.
  intros tag. split; [reflexivity|].
  apply (handleLegacyTagFieldsForCreate_twice tag). reflexivity.
Defined.

Lemma handleLegacyTagFieldsForCreate_throws_half_done_witness :
  let tag :=
    [("animal", Obj.VStr "cat"); ("event", Obj.VStr "seen");
     ("detail", Obj.VStr "heard")]%string in
  thrown (handleLegacyTagFieldsForCreate tag)
  = Some (both_fields_message "event" "detail") /\
  Obj.get (after (handleLegacyTagFieldsForCreate tag)) "what"
  = Obj.VStr "cat" /\
  after (handleLegacyTagFieldsForCreate tag) <> tag.
Proof.
  intros tag.
  destruct (handleLegacyTagFieldsForCreate_throws_half_done tag)
    as (T & W & _ & N); try reflexivity.
  split; [exact T|]. split; [exact W | exact N].
Defined.

Lemma legacy_fields_read_back_witness :
  let tag := [("animal", Obj.VStr "cat"); ("event", Obj.VStr "seen")]%string
  in
  thrown (handleLegacyTagFieldsForCreate tag) = None /\
  Obj.get (handleLegacyTagFieldsForGet
             (after (handleLegacyTagFieldsForCreate tag))) "animal"
  = Obj.VStr "cat" /\
  Obj.get (handleLegacyTagFieldsForGet
             (after (handleLegacyTagFieldsForCreate tag))) "event"
  = Obj.VStr "seen".
Proof.
  intros tag. split; [reflexivity|].
  destruct (legacy_fields_read_back tag eq_refl) as (_ & _ & A & E & _).
  split; [apply A | apply E]; reflexivity.
Defined.



Lemma fetch_limit_between_two_and_queryMax_witness :
  exists s : LoopState Summary,
    state_at (paged_source 3 three_recordings) no_filter (query_first 1) 0
    = Some s /\
    loop_test s = true /\
    query_limit s = 2 /\
    2 <= query_limit s <= queryMax /\
    fetch (paged_source 3 three_recordings) s
    = (CallFindAndCountAll 0 2, Some 3, firstn 2 three_recordings).
Proof.
  assert (E : exists s : LoopState Summary,
             state_at (paged_source 3 three_recordings) no_filter
                      (query_first 1) 0 = Some s)
    by (eexists; reflexivity).
  destruct E as (s & E). exists s. split; [exact E|].
  destruct (fetch_limit_between_two_and_queryMax
              (DS := Summary) (H := summary_ops)
              (paged_source 3 three_recordings) no_filter (query_first 1)
              0%nat s E) as (_ & B & F).
  { vm_compute in E. injection E as <-. reflexivity. }
  vm_compute in E. injection E as <-.
  split; [reflexivity|]. split; [reflexivity|].
  split; [exact B | exact F].
Defined.


Lemma no_visit_wanted_no_fetch_witness :
  exists r,
    run_query (paged_source 3 three_recordings) [] (query_first 0) 0
    = Some r /\
    filter is_fetch (r_calls r) = [] /\
    r_hasMoreVisits r = true /\
    r_totalRecordings r = None.
Proof.
  destruct (no_visit_wanted_no_fetch
              (DS := Summary) (H := summary_ops)
              (paged_source 3 three_recordings) no_filter (lookup_in [])
              (query_first 0) 0 0%nat eq_refl)
    as (r & Q & F & M & T & _); [lia|].
  exists r. auto.
Defined.


Lemma paged_source_ends count db :
  source_ends_at (paged_source count db) (Z.of_nat (List.length db)).
Proof.
  intros n offset limit Ho. unfold paged_source, page. simpl.
  rewrite skipn_all2 by lia. rewrite firstn_nil. auto.
Qed.

Lemma query_ends_on_a_finite_source_witness :
  source_ends_at (paged_source 3 three_recordings) 3 /\
  exists r,
    forall fuel,
      (3 < fuel)%nat ->
      run_query (paged_source 3 three_recordings) [] query_all fuel
      = Some r.
Proof.
  split; [exact (paged_source_ends 3 three_recordings)|].
  destruct (query_ends_on_a_finite_source
              (DS := Summary) (H := summary_ops)
              (paged_source 3 three_recordings) no_filter (lookup_in [])
              query_all 3 (paged_source_ends 3 three_recordings))
    as (r & Q).
  exists r. intros fuel Hf. apply Q. simpl. lia.
Defined.

Lemma resolved_file_names_the_bait_witness :
  let known := [{| f_id := 42; f_name := "kiwi call" |}] in
  exists results rows,
    run_query (paged_source 1 baited) known query_all 2 = Some results /\
    run_report (paged_source 1 baited) known query_all 2 = Some rows /\
    forall audioBait what played,
      In (RowAudioBait audioBait what played) rows ->
      ae_fileId audioBait = 42 ->
      ae_volume audioBait = Some 5 ->
      what = JS.CString "kiwi call" /\
      played = JS.CString "kiwi call vol 5".
Proof.
  intros known. do 2 eexists.
  split; [vm_compute; reflexivity|]. split; [vm_compute; reflexivity|].
  intros audioBait what played Hin Hid Hvol.
  destruct (resolved_file_names_the_bait
              (DS := Summary) (H := summary_ops)
              (paged_source 1 baited) no_filter (lookup_in known)
              no_device_rows query_all 2 _ _ audioBait what played
              [] [] {| f_id := 42; f_name := "kiwi call" |}
              eq_refl eq_refl Hin eq_refl (eq_sym Hid))
    as (W & P).
  { intros g []. }
  split; [exact W|]. rewrite P, Hvol. reflexivity.
Defined.

Lemma report_lists_the_visits_in_order_witness :
  exists results rest,
    run_query (paged_source 3 three_recordings) [] query_all 2
    = Some results /\
    run_report (paged_source 3 three_recordings) [] query_all 2
    = Some (RowCells [] :: RowCells visits_header :: rest) /\
    map visitID (row_visits rest) = [0; 1; 2].
Proof.
  eexists.
  destruct (report_lists_the_visits_in_order
              (DS := Summary) (H := summary_ops)
              (paged_source 3 three_recordings) no_filter (lookup_in [])
              no_device_rows query_all 2 _ eq_refl)
    as (rest & R & V & _).
  exists rest. split; [reflexivity|]. split; [exact R|].
  rewrite V. reflexivity.
Defined.

Lemma tryToMatchRecordingToStation_takes_the_closest_witness :
  let near := {| st_id := 1; st_coordinates := (0, 0)%Q |} in
  let far := {| st_id := 2; st_coordinates := (1, 1)%Q |} in
  let distance :=
    fun a b : Coordinates =>
      if Qeq_bool (fst a) 0 then Some 12%Q else Some 25%Q in
  tryToMatchRecordingToStation distance [] (Some (5, 5)%Q)
                               (Some [far; near])
  = Some near /\
  exists d,
    distance (st_coordinates near) (5, 5)%Q = Some d /\
    (d <= MAX_DISTANCE_FROM_STATION_FOR_RECORDING)%Q.
Proof.
  intros near far distance.
  pose proof (tryToMatchRecordingToStation_takes_the_closest
                distance [] (Some (5, 5)%Q) (Some [far; near])) as T.
  assert (E : tryToMatchRecordingToStation distance [] (Some (5, 5)%Q)
                                           (Some [far; near]) = Some near)
    by reflexivity.
  rewrite E in T. destruct T as (loc & d & L & _ & D & W & _).
  injection L as <-.
  split; [exact E|]. exists d. split; [exact D | exact W].
Defined.

Lemma formatTags_ignores_the_order_witness :
  Permutation [Some "possum"; Some "cat"]%string
              [Some "cat"; Some "possum"]%string /\
  formatTags [Some "possum"; Some "cat"]%string
  = formatTags [Some "cat"; Some "possum"]%string /\
  formatTags [Some "cat"; Some "possum"]%string = "cat+possum"%string.
Proof.
  assert (P : Permutation [Some "possum"; Some "cat"]%string
                          [Some "cat"; Some "possum"]%string)
    by apply perm_swap.
  split; [exact P|]. split; [|reflexivity].
  apply (formatTags_ignores_the_order _ _ P).
  repeat constructor; simpl; intuition discriminate.
Defined.
